(** * storyblok-translate-slugs: a shallow embedding of the CLI script

    The repository is one linear script, [bin/storyblok-translate-slugs.mjs].
    It parses its command line with minimist, resolves its configuration from
    flags and environment variables, fetches the stories of a Storyblok space,
    translates slug and name of every story with DeepL and writes the stories
    back.  The script is embedded as a computation in a state-and-exit monad:
    the state holds the two process-wide counters of the script and the trace
    of everything the process did to the outside world (console lines, DeepL
    calls, Management API calls); the answers of the two remote services are
    a parameter of the run. *)

From stdpp Require Import base strings list gmap.
From Stdlib Require Import ZArith Ascii String.

Local Open Scope string_scope.
Local Open Scope list_scope.
Local Open Scope Z_scope.

(** ** JavaScript values as minimist produces them *)

(** A value of the [args] object: minimist stores [true] for a flag without
    value, [false] for [--no-flag], a number for a numeric-looking value
    (integers only here), a string otherwise, and an array when a flag is
    repeated.  [undefined] is [None] at the type [option jsval]. *)
#[warnings="-register-all"]
Inductive jsval : Type :=
| JBool (b : bool)
| JNum (n : Z)
| JStr (s : string)
| JArr (l : list jsval).

(** ToBoolean. *)
Definition truthy (v : jsval) : bool :=
  match v with
  | JBool b => b
  | JNum n => negb (n =? 0)
  | JStr s => negb (String.eqb s "")
  | JArr _ => true
  end.

Definition truthy_opt (o : option jsval) : bool :=
  match o with
  | Some v => truthy v
  | None => false
  end.

(** [a || b] *)
Definition js_or (a b : option jsval) : option jsval :=
  if truthy_opt a then a else b.

(** [process.env.NAME]: a string or [undefined]. *)
Definition env_val (env : gmap string string) (name : string) : option jsval :=
  JStr <$> env !! name.

(** [key in args] *)
Definition has_key (args : gmap string jsval) (key : string) : bool :=
  bool_decide (is_Some (args !! key)).

(** [s.split(',')] on a string: the pieces between the separators, at least
    one piece. *)
Fixpoint split_on (sep : ascii) (s : string) : list string :=
  match s with
  | EmptyString => [EmptyString]
  | String c rest =>
      if Ascii.eqb c sep then EmptyString :: split_on sep rest
      else match split_on sep rest with
           | piece :: pieces => String c piece :: pieces
           | [] => [String c EmptyString]
           end
  end.

(** [list.includes(x)] on an array of strings. *)
Definition includes (l : list string) (x : string) : bool :=
  existsb (String.eqb x) l.

(** ** Data model *)

(** An item of [story.localized_paths]; [published] is kept as its
    truthiness. *)
Record LocalizedPath : Type := {
  lp_lang : string;
  lp_published : bool
}.

(** An entry pushed to [story.translated_slugs_attributes]. *)
Record TranslatedSlug : Type := {
  ts_lang : string;
  ts_slug : string;
  ts_name : string
}.

(** A full story record as [GET spaces/:space/stories/:id] returns it.  The
    script reads [id], [slug], [name], [full_slug] and [localized_paths] and
    writes [translated_slugs_attributes]; all remaining keys of the object are
    kept in [other_fields].  A key that may be missing is an [option]. *)
Record Story : Type := {
  story_id : Z;
  slug : string;
  name : string;
  full_slug : string;
  localized_paths : option (list LocalizedPath);
  translated_slugs_attributes : option (list TranslatedSlug);
  other_fields : list (string * jsval)
}.

(** An item of the story list of [getAll spaces/:space/stories]. *)
Record StoryListItem : Type := {
  is_folder : bool;
  content_type : string;
  item_full_slug : string;
  item_id : Z
}.

(** What [translator.translateText] resolves to. *)
Record TextResult : Type := {
  text : string;
  billedCharacters : Z;
  detectedSourceLang : string
}.

(** The body of the PUT request: [{ story, ...(publish ? { publish: 1 } : {}) }]. *)
Record PutBody : Type := {
  put_story : Story;
  put_publish : option Z
}.

(** The constants the script computes from its flags and environment
    (lines 71 to 115). *)
Record RunConfig : Type := {
  oauthToken : option jsval;
  spaceId : option jsval;
  region : string;
  verbose : bool;
  deeplApiKey : option jsval;
  sourceLang : option jsval;
  contentTypes : list string;
  locales : list string;
  skipStories : list string;
  onlyStories : list string
}.

(** A console line.  Fixed texts are kept verbatim, template strings keep the
    values they interpolate.  The elapsed time of the last but one line is not
    modelled. *)
Inductive line : Type :=
| Text (s : string)
| Usage
| InfoHeader (space : option jsval)
| InfoMode (dry_run publish : bool)
| InfoSourceLocale (source : option jsval)
| InfoTargetLocales (l : list string)
| InfoContentTypes (l : list string)
| InfoSkippedStories (l : list string)
| InfoOnlyStories (l : list string)
| DefaultFullSlug (s : string)
| DefaultName (s : string)
| ErrLocalizedPaths (story_full_slug : string)
| SkippedLocale (locale : string)
| UpdatedSlugs (l : list TranslatedSlug)
| ErrDetectedSourceLang (detected previous : string)
| Finished
| TotalBilled (n : Z).

(** Everything the process does that is visible outside of it, in order. *)
Inductive event : Type :=
| EvLog (l : line)
| EvTranslate (txt : string) (source : option jsval) (target : string)
    (res : option TextResult)
| EvGetSpace
| EvGetAll
| EvGetStory (i : Z)
| EvPut (i : Z) (body : PutBody).

(** The two remote services.  Every answer may depend on all that happened
    before; [None] (or [false]) is a request that fails, which the script does
    not catch. *)
Record World : Type := {
  translateText : list event → string → option jsval → string → option TextResult;
  getSpaceLanguages : list event → option (list string);
  getAllStories : list event → option (list StoryListItem);
  getStory : list event → Z → option Story;
  putStory : list event → Z → PutBody → bool
}.

(** ** The monad of the script *)

Inductive error : Type :=
| TypeError (what : string)
| ApiError (what : string).

(** How the process stops: [process.exit(code)], or an error that nothing
    catches (which ends a Node process with code 1). *)
Inductive halt : Type :=
| Exit (code : Z)
| Throw (e : error).

(** How a piece of the script ends: it goes on with a value, or the process
    stops there. *)
Inductive result (A : Type) : Type :=
| Ok (a : A)
| Halt (h : halt).
Arguments Ok {A} a.
Arguments Halt {A} h.

(** The module-level [let] variables of the script (lines 127 and 128) and
    the trace. *)
Record state : Type := {
  st_detectedSourceLang : option string;
  st_totalBilledCharacters : Z;
  trace : list event
}.

Definition M (A : Type) : Type := state → result A * state.

#[global] Instance M_ret : MRet M := λ A a st, (Ok a, st).

#[global] Instance M_bind : MBind M := λ A B f m st,
  match m st with
  | (Ok a, st') => f a st'
  | (Halt h, st') => (Halt h, st')
  end.

Definition emit (e : event) : M unit := λ st,
  (Ok tt, {| st_detectedSourceLang := st_detectedSourceLang st;
             st_totalBilledCharacters := st_totalBilledCharacters st;
             trace := trace st ++ [e] |}).

Definition console_log (l : line) : M unit := emit (EvLog l).

Definition process_exit {A : Type} (code : Z) : M A :=
  λ st, (Halt (Exit code), st).

Definition throw {A : Type} (e : error) : M A := λ st, (Halt (Throw e), st).

Definition get_state : M state := λ st, (Ok st, st).

Definition set_detectedSourceLang (d : string) : M unit := λ st,
  (Ok tt, {| st_detectedSourceLang := Some d;
             st_totalBilledCharacters := st_totalBilledCharacters st;
             trace := trace st |}).

Definition add_totalBilledCharacters (n : Z) : M unit := λ st,
  (Ok tt, {| st_detectedSourceLang := st_detectedSourceLang st;
             st_totalBilledCharacters := st_totalBilledCharacters st + n;
             trace := trace st |}).

Definition when (b : bool) (m : M unit) : M unit :=
  if b then m else mret tt.

Definition initial_state : state :=
  {| st_detectedSourceLang := None; st_totalBilledCharacters := 0; trace := [] |}.

(** ** Configuration (lines 16 to 115) *)

Definition msg_token : string :=
  "Error: State your oauth token via the --token argument or the environment variable STORYBLOK_OAUTH_TOKEN. Use --help to find out more.".

Definition msg_space : string :=
  "Error: State your space id via the --space argument or the environment variable STORYBLOK_SPACE_ID. Use --help to find out more.".

Definition msg_region : string :=
  "Error: Invalid region parameter stated. Use --help to find out more.".

Definition msg_deepl : string :=
  "Error: State your DeepL API key via the --deepl-api-key argument or the environment variable DEEPL_API_KEY. Use --help to find out more.".

Definition regions : list string := ["eu"; "us"; "ap"; "ca"; "cn"].

(** [args[key] ? args[key].split(',') : dflt]; only a string has [split]. *)
Definition split_arg (v : option jsval) (dflt : list string) : M (list string) :=
  if truthy_opt v then
    match v with
    | Some (JStr s) => mret (split_on "," s)
    | _ => throw (TypeError "split is not a function")
    end
  else mret dflt.

Section Configuration.
Variable args : gmap string jsval.
Variable env : gmap string string.

(** The condition of lines 71, 79 and 99:
    [!(flag in args) && !process.env.VAR]. *)
Definition missing (flag var : string) : bool :=
  negb (has_key args flag) && negb (truthy_opt (env_val env var)).

(** Lines 71 to 77 (token), 79 to 85 (space), 99 to 105 (DeepL key): the
    check looks for the key in [args], the value is taken with [||]. *)
Definition required (flag var msg : string) : M (option jsval) :=
  when (missing flag var)
       (console_log (Text msg);; process_exit 1);;
  mret (js_or (args !! flag) (env_val env var)).

(** Lines 87 to 95. *)
Definition resolve_region : M string :=
  if has_key args "region" || truthy_opt (env_val env "STORYBLOK_REGION") then
    match js_or (args !! "region") (env_val env "STORYBLOK_REGION") with
    | Some (JStr r) =>
        if includes regions r then mret r
        else console_log (Text msg_region);; process_exit 1
    | _ => console_log (Text msg_region);; process_exit 1
    end
  else mret "eu".

Definition resolve_config : M RunConfig :=
  oauthToken ← required "token" "STORYBLOK_OAUTH_TOKEN" msg_token;
  spaceId ← required "space" "STORYBLOK_SPACE_ID" msg_space;
  region ← resolve_region;
  let verbose := has_key args "verbose" in
  deeplApiKey ← required "deepl-api-key" "DEEPL_API_KEY" msg_deepl;
  let sourceLang := js_or (args !! "source-lang") None in
  contentTypes ← split_arg (args !! "content-types") ["page"];
  locales ← split_arg (args !! "locales") [];
  skipStories ← split_arg (args !! "skip-stories") [];
  onlyStories ← split_arg (args !! "only-stories") [];
  mret {| oauthToken := oauthToken; spaceId := spaceId; region := region;
          verbose := verbose; deeplApiKey := deeplApiKey;
          sourceLang := sourceLang; contentTypes := contentTypes;
          locales := locales; skipStories := skipStories;
          onlyStories := onlyStories |}.
End Configuration.

(** ** The run (lines 117 to 276) *)

(** The condition of the story filter (lines 179 to 184). *)
Definition story_filter (cfg : RunConfig) (story : StoryListItem) : bool :=
  negb (is_folder story)
  && includes (contentTypes cfg) (content_type story)
  && negb (includes (skipStories cfg) (item_full_slug story))
  && (if (0 <? List.length (onlyStories cfg))%nat
      then includes (onlyStories cfg) (item_full_slug story)
      else true).

(** [story.localized_paths.find((item) => item.lang === locale)] *)
Definition existingTranslation (paths : list LocalizedPath) (locale : string)
  : option LocalizedPath :=
  List.find (λ item, String.eqb (lp_lang item) locale) paths.

(** The condition of line 213:
    [existingTranslation && existingTranslation.published && !args.overwrite]. *)
Definition skip_locale (args : gmap string jsval) (paths : list LocalizedPath)
    (locale : string) : bool :=
  match existingTranslation paths locale with
  | Some item => lp_published item && negb (truthy_opt (args !! "overwrite"))
  | None => false
  end.

Definition set_translated_slugs_attributes (story : Story)
    (l : list TranslatedSlug) : Story :=
  {| story_id := story_id story; slug := slug story; name := name story;
     full_slug := full_slug story; localized_paths := localized_paths story;
     translated_slugs_attributes := Some l;
     other_fields := other_fields story |}.

(** Lines 232 to 240: create the list if the key is missing, then push. *)
Definition push_translated_slug (story : Story) (entry : TranslatedSlug) : Story :=
  let story :=
    match translated_slugs_attributes story with
    | None => set_translated_slugs_attributes story []
    | Some _ => story
    end in
  set_translated_slugs_attributes story
    (default [] (translated_slugs_attributes story) ++ [entry]).

Section Script.
Variable slugify : string → string.
Variable W : World.
Variable args : gmap string jsval.

(** The remote calls: the request is recorded, the answer is the world's. *)
Definition translator_translateText (txt : string) (source : option jsval)
    (target : string) : M TextResult := λ st,
  let res := translateText W (trace st) txt source target in
  match emit (EvTranslate txt source target res) st with
  | (_, st') =>
      match res with
      | Some r => (Ok r, st')
      | None => (Halt (Throw (ApiError "translateText")), st')
      end
  end.

Definition get_space_languages : M (list string) := λ st,
  match emit EvGetSpace st with
  | (_, st') =>
      match getSpaceLanguages W (trace st) with
      | Some l => (Ok l, st')
      | None => (Halt (Throw (ApiError "get space")), st')
      end
  end.

Definition get_all_stories : M (list StoryListItem) := λ st,
  match emit EvGetAll st with
  | (_, st') =>
      match getAllStories W (trace st) with
      | Some l => (Ok l, st')
      | None => (Halt (Throw (ApiError "get stories")), st')
      end
  end.

Definition get_story (i : Z) : M Story := λ st,
  match emit (EvGetStory i) st with
  | (_, st') =>
      match getStory W (trace st) i with
      | Some s => (Ok s, st')
      | None => (Halt (Throw (ApiError "get story")), st')
      end
  end.

Definition put_story_request (i : Z) (body : PutBody) : M unit := λ st,
  match emit (EvPut i body) st with
  | (_, st') =>
      if putStory W (trace st) i body then (Ok tt, st')
      else (Halt (Throw (ApiError "put story")), st')
  end.

Section WithConfig.
Variable cfg : RunConfig.

(** Lines 129 to 147. *)
Definition translate (txt targetLang : string) : M string :=
  translationResult ← translator_translateText txt (sourceLang cfg) targetLang;
  add_totalBilledCharacters (billedCharacters translationResult);;
  match sourceLang cfg with
  | None =>
      st ← get_state;
      match st_detectedSourceLang st with
      | Some previous =>
          if String.eqb previous "" then
            set_detectedSourceLang (detectedSourceLang translationResult)
          else if negb (String.eqb (detectedSourceLang translationResult) previous) then
            console_log (ErrDetectedSourceLang
                           (detectedSourceLang translationResult) previous);;
            process_exit 1
          else mret tt
      | None => set_detectedSourceLang (detectedSourceLang translationResult)
      end
  | Some _ => mret tt
  end;;
  mret (text translationResult).

(** Lines 150 to 155. *)
Definition resolve_locales : M (list string) :=
  if (List.length (locales cfg) =? 0)%nat then
    console_log (Text "No locales stated.");;
    console_log (Text "Fetching space locales...");;
    languages ← get_space_languages;
    mret (locales cfg ++ languages)
  else mret (locales cfg).

(** Lines 158 to 171. *)
Definition general_information (locales : list string) : M unit :=
  console_log (Text "");;
  console_log (InfoHeader (spaceId cfg));;
  console_log (InfoMode (truthy_opt (args !! "dry-run"))
                        (truthy_opt (args !! "publish")));;
  console_log (InfoSourceLocale (sourceLang cfg));;
  console_log (InfoTargetLocales locales);;
  console_log (InfoContentTypes (contentTypes cfg));;
  when (0 <? List.length (skipStories cfg))%nat
       (console_log (InfoSkippedStories (skipStories cfg)));;
  when (0 <? List.length (onlyStories cfg))%nat
       (console_log (InfoOnlyStories (onlyStories cfg))).

(** Lines 178 to 188. *)
Fixpoint fetch_stories (storyList : list StoryListItem) (stories : list Story)
  : M (list Story) :=
  match storyList with
  | [] => mret stories
  | story :: rest =>
      if story_filter cfg story then
        storyData ← get_story (item_id story);
        fetch_stories rest (stories ++ [storyData])
      else fetch_stories rest stories
  end.

(** The body of the loop over the locales (lines 202 to 240); the story
    object it mutates is passed on. *)
Definition process_locale (story : Story) (locale : string) : M Story :=
  match localized_paths story with
  | None =>
      console_log (ErrLocalizedPaths (full_slug story));;
      process_exit 1
  | Some paths =>
      if skip_locale args paths locale then
        when (verbose cfg) (console_log (SkippedLocale locale));;
        mret story
      else
        slugTranslateResult ← translate (slug story) locale;
        let translatedSlug := slugify slugTranslateResult in
        translatedName ← translate (name story) locale;
        mret (push_translated_slug story
                {| ts_lang := locale; ts_slug := translatedSlug;
                   ts_name := translatedName |})
  end.

(** Lines 201 to 241. *)
Fixpoint translate_locales (story : Story) (locales : list string) : M Story :=
  match locales with
  | [] => mret story
  | locale :: rest =>
      story ← process_locale story locale;
      translate_locales story rest
  end.

(** Lines 243 to 268: what is done with a story after its locales. *)
Definition write_story (story : Story) : M unit :=
  match translated_slugs_attributes story with
  | None => when (verbose cfg) (console_log (Text "No translations needed."))
  | Some attributes =>
      when (verbose cfg) (console_log (UpdatedSlugs attributes));;
      if truthy_opt (args !! "dry-run") then
        when (verbose cfg) (console_log (Text "Dry-run mode. No changes performed."))
      else
        put_story_request (story_id story)
          {| put_story := story;
             put_publish := if truthy_opt (args !! "publish") then Some 1 else None |};;
        when (verbose cfg) (console_log (Text "Update successful."))
  end.

(** The body of the loop over the stories (lines 193 to 268). *)
Definition process_story (locales : list string) (story : Story) : M unit :=
  when (verbose cfg)
       (console_log (Text "");;
        console_log (DefaultFullSlug (full_slug story));;
        console_log (DefaultName (name story)));;
  story ← translate_locales story locales;
  write_story story.

(** Lines 192 to 269. *)
Fixpoint process_stories (locales : list string) (stories : list Story) : M unit :=
  match stories with
  | [] => mret tt
  | story :: rest =>
      process_story locales story;;
      process_stories locales rest
  end.

(** Lines 149 to 191: the locales and the stories to process. *)
Definition prepare : M (list string * list Story) :=
  locales ← resolve_locales;
  general_information locales;;
  console_log (Text "");;
  console_log (Text "Fetching stories...");;
  storyList ← get_all_stories;
  stories ← fetch_stories storyList [];
  console_log (Text "");;
  console_log (Text "Processing stories...");;
  mret (locales, stories).

(** Lines 271 to 276. *)
Definition report : M unit :=
  console_log (Text "");;
  console_log Finished;;
  st ← get_state;
  console_log (TotalBilled (st_totalBilledCharacters st));;
  process_exit 0.

(** Lines 149 to 276. *)
Definition run_with_config : M unit :=
  prepared ← prepare;
  process_stories prepared.1 prepared.2;;
  report.
End WithConfig.

(** The whole script. *)
Definition main (env : gmap string string) : M unit :=
  if has_key args "help" then
    console_log Usage;;
    process_exit 0
  else
    cfg ← resolve_config args env;
    run_with_config cfg.

Definition run (env : gmap string string) : result unit * state :=
  main env initial_state.
End Script.

(** ** Slugification *)

(** The script imports [slugify] from the package [@sindresorhus/slugify];
    the run above takes it as a parameter.  The model below is for the
    property of the function itself.  Characters are bytes read as Latin-1
    code points. *)

Definition char_in (lo hi : N) (c : ascii) : bool :=
  (lo <=? N_of_ascii c)%N && (N_of_ascii c <=? hi)%N.

Definition lower_char (c : ascii) : ascii :=
  if char_in 65 90 c || (char_in 192 222 c && negb (N_of_ascii c =? 215)%N)
  then ascii_of_N (N_of_ascii c + 32)
  else c.

Definition strip_diacritic (c : ascii) : ascii :=
  if char_in 224 229 c then "a"%char
  else if (N_of_ascii c =? 231)%N then "c"%char
  else if char_in 232 235 c then "e"%char
  else if char_in 236 239 c then "i"%char
  else if (N_of_ascii c =? 241)%N then "n"%char
  else if char_in 242 246 c then "o"%char
  else if char_in 249 252 c then "u"%char
  else if (N_of_ascii c =? 253)%N || (N_of_ascii c =? 255)%N then "y"%char
  else c.

Definition is_whitespace (c : ascii) : bool :=
  char_in 9 13 c || (N_of_ascii c =? 32)%N || (N_of_ascii c =? 160)%N.

Definition hyphen_char (c : ascii) : ascii :=
  if is_whitespace c then "-"%char else c.

Definition allowed_char (c : ascii) : bool :=
  char_in 97 122 c || char_in 48 57 c || (N_of_ascii c =? 45)%N.

Fixpoint map_chars (f : ascii → ascii) (s : string) : string :=
  match s with
  | EmptyString => EmptyString
  | String c rest => String (f c) (map_chars f rest)
  end.

Fixpoint keep_chars (p : ascii → bool) (s : string) : string :=
  match s with
  | EmptyString => EmptyString
  | String c rest => if p c then String c (keep_chars p rest) else keep_chars p rest
  end.

(** Modelled from the spec: the function [slugify] of the imported package
    [@sindresorhus/slugify] is not part of the sources.  The spec (4.3) gives
    its rules as lowercasing, diacritic stripping, whitespace-to-hyphen and
    stripping of disallowed characters, so that the result is a valid path
    segment; they are applied in that order, a path segment being made of
    lowercase letters, digits and hyphens. *)
Definition slugify_model (s : string) : string :=
  keep_chars allowed_char
    (map_chars hyphen_char (map_chars strip_diacritic (map_chars lower_char s))).

(** ** Observations on traces *)

Definition is_put (e : event) : bool :=
  match e with
  | EvPut _ _ => true
  | _ => false
  end.

Definition is_translate (e : event) : bool :=
  match e with
  | EvTranslate _ _ _ _ => true
  | _ => false
  end.

(** What a call of the translator was billed; a call that failed has no
    result and adds nothing. *)
Definition billed (e : event) : Z :=
  match e with
  | EvTranslate _ _ _ (Some r) => billedCharacters r
  | _ => 0
  end.

Definition sum_billed (tr : list event) : Z :=
  foldr (λ e n, billed e + n) 0 tr.

(** Text and target language of the calls of the translator, in order. *)
Definition call (e : event) : option (string * string) :=
  match e with
  | EvTranslate txt _ target _ => Some (txt, target)
  | _ => None
  end.

Definition calls (tr : list event) : list (string * string) := omap call tr.

(** The source languages the translator reported, in order. *)
Definition detection (e : event) : option string :=
  match e with
  | EvTranslate _ _ _ (Some r) => Some (detectedSourceLang r)
  | _ => None
  end.

Definition detections (tr : list event) : list string := omap detection tr.

(** The locales of a story that line 213 does not skip. *)
Definition translated_locales (args : gmap string jsval) (story : Story)
    (locales : list string) : list string :=
  match localized_paths story with
  | Some paths => List.filter (λ locale, negb (skip_locale args paths locale)) locales
  | None => locales
  end.

(** The calls of the translator a story asks for: slug, then name, for every
    locale that is not skipped. *)
Definition story_calls (args : gmap string jsval) (locales : list string)
    (story : Story) : list (string * string) :=
  flat_map (λ locale, [(slug story, locale); (name story, locale)])
           (translated_locales args story locales).

(** ** Example inputs *)

Definition example_translateText (h : list event) (txt : string)
    (source : option jsval) (target : string) : option TextResult :=
  Some {| text := target +:+ " " +:+ txt;
          billedCharacters := Z.of_nat (String.length txt);
          detectedSourceLang := if String.eqb txt "accueil" then "FR" else "EN" |}.

Definition story_home : Story :=
  {| story_id := 1; slug := "home"; name := "Home"; full_slug := "home";
     localized_paths := Some [];
     translated_slugs_attributes := None;
     other_fields := [("is_startpage", JBool true)] |}.

Definition story_about : Story :=
  {| story_id := 2; slug := "about-us"; name := "About Us"; full_slug := "about-us";
     localized_paths := Some [ {| lp_lang := "de"; lp_published := true |};
                               {| lp_lang := "fr"; lp_published := false |} ];
     translated_slugs_attributes := None;
     other_fields := [] |}.

Definition story_accueil : Story :=
  {| story_id := 3; slug := "accueil"; name := "Accueil"; full_slug := "fr/accueil";
     localized_paths := Some [];
     translated_slugs_attributes := None;
     other_fields := [] |}.

Definition story_plain : Story :=
  {| story_id := 4; slug := "plain"; name := "Plain"; full_slug := "plain";
     localized_paths := None;
     translated_slugs_attributes := None;
     other_fields := [] |}.

Definition example_stories : list Story :=
  [story_home; story_about; story_accueil; story_plain].

Definition page_item (s : Story) : StoryListItem :=
  {| is_folder := false; content_type := "page";
     item_full_slug := full_slug s; item_id := story_id s |}.

(** A space whose story list is [items]; every request is answered. *)
Definition example_world (items : list StoryListItem) : World :=
  {| translateText := example_translateText;
     getSpaceLanguages := λ _, Some ["de"; "fr"];
     getAllStories := λ _, Some items;
     getStory := λ _ i, List.find (λ s, story_id s =? i) example_stories;
     putStory := λ _ _ _, true |}.

Definition example_args : gmap string jsval :=
  {[ "token" := JStr "1234567890abcdef"; "space" := JNum 12345;
     "deepl-api-key" := JStr "1234567890abcdef"; "locales" := JStr "de" ]}.

Definition example_items : list StoryListItem :=
  [ page_item story_home;
    {| is_folder := true; content_type := "page"; item_full_slug := "fr"; item_id := 9 |};
    page_item story_about ].

(** The body of the request that writes [story_home] back. *)
Definition home_put_body : PutBody :=
  {| put_story :=
       set_translated_slugs_attributes story_home
         [ {| ts_lang := "de"; ts_slug := "de-home"; ts_name := "de Home" |} ];
     put_publish := None |}.

(** A space in which nothing goes wrong. *)
Definition steady_world : World :=
  {| translateText := λ _ txt _ target,
       Some {| text := target +:+ " " +:+ txt;
               billedCharacters := Z.of_nat (String.length txt);
               detectedSourceLang := "EN" |};
     getSpaceLanguages := λ _, Some ["de"; "fr"];
     getAllStories := λ _, Some example_items;
     getStory := λ _ i, Some (if i =? 2 then story_about else story_home);
     putStory := λ _ _ _, true |}.

Definition dry_run_args : gmap string jsval :=
  <["dry-run" := JBool true]> example_args.

(** A space with an English and a French story. *)
Definition mixed_items : list StoryListItem :=
  [page_item story_home; page_item story_accueil].

Definition example_env : gmap string string :=
  {[ "STORYBLOK_OAUTH_TOKEN" := "token-of-the-environment";
     "STORYBLOK_REGION" := "us" ]}.

(** What [example_args] and [example_env] resolve to. *)
Definition example_config : RunConfig :=
  {| oauthToken := Some (JStr "1234567890abcdef");
     spaceId := Some (JNum 12345);
     region := "us";
     verbose := false;
     deeplApiKey := Some (JStr "1234567890abcdef");
     sourceLang := None;
     contentTypes := ["page"];
     locales := ["de"];
     skipStories := [];
     onlyStories := [] |}.

(** [--token ""] on the command line, as an unset shell variable leaves it. *)
Definition args_empty_token : gmap string jsval :=
  <["token" := JStr ""]> example_args.

(** ** Vocabulary of the statements *)

(** A region is stated (line 88) and is not one of the five (line 91). *)
Definition bad_region (args : gmap string jsval) (env : gmap string string) : bool :=
  (has_key args "region" || truthy_opt (env_val env "STORYBLOK_REGION"))
  && negb match js_or (args !! "region") (env_val env "STORYBLOK_REGION") with
          | Some (JStr r) => includes regions r
          | _ => false
          end.

(** The line the configuration checks print first when a required value is
    missing: they run in the order token, space, region, DeepL key. *)
Definition first_complaint (args : gmap string jsval) (env : gmap string string)
  : string :=
  if missing args env "token" "STORYBLOK_OAUTH_TOKEN" then msg_token
  else if missing args env "space" "STORYBLOK_SPACE_ID" then msg_space
  else if bad_region args env then msg_region
  else msg_deepl.

(** [m] keeps the invariant [I] as long as the script goes on, and where the
    process stops in [m] the final condition [F] holds of the way it stops
    and of the last state. *)
Definition maintains {A : Type} (I : state → Prop) (F : halt → state → Prop)
    (m : M A) : Prop :=
  ∀ st, I st →
    match m st with
    | (Ok _, st') => I st'
    | (Halt h, st') => F h st'
    end.

(** The counter of billed characters is the sum over the calls made. *)
Definition billing_inv (st : state) : Prop :=
  st_totalBilledCharacters st = sum_billed (trace st).

(** A run that ends with code 0 without [--help] has printed the sum of the
    billed characters as its last line. *)
Definition reported (args : gmap string jsval) (h : halt) (st : state) : Prop :=
  h = Exit 0 → has_key args "help" = false →
  last (trace st) = Some (EvLog (TotalBilled (sum_billed (trace st)))).

Definition no_put (tr : list event) : Prop := Forall (λ e, is_put e = false) tr.

(** The languages the calls made so far reported, when the script remembers
    [d]: the empty string as long as nothing was remembered (line 136 takes
    an empty string for nothing), then [d], which line 137 remembered, and
    [d] again for every call after that one. *)
Definition reported_so_far (d : string) (ds : list string) : Prop :=
  ∃ k m, ds = replicate k "" ++ replicate (S m) d.

(** What the script remembers of the calls made so far: nothing (null or
    the empty string) when every call reported the empty string, and
    otherwise the one language that was reported. *)
Definition detection_inv (st : state) : Prop :=
  (default "" (st_detectedSourceLang st) = "" ∧
   ∀ d, In d (detections (trace st)) → d = "") ∨
  (∃ d, st_detectedSourceLang st = Some d ∧ d ≠ "" ∧
        reported_so_far d (detections (trace st))).

(** The trace of a run that line 142 ended: the call whose detected language
    [detectedSourceLang r] differs from the remembered language [d], then
    the error line, and nothing after it. *)
Definition aborted_on_detection (tr : list event) : Prop :=
  ∃ pre txt target r d,
    tr = pre ++ [EvTranslate txt None target (Some r);
                 EvLog (ErrDetectedSourceLang (detectedSourceLang r) d)] ∧
    reported_so_far d (detections pre) ∧
    d ≠ "" ∧ detectedSourceLang r ≠ d.

(** [s'] is [s] but for [translated_slugs_attributes]. *)
Definition same_but_translated_slugs (s s' : Story) : Prop :=
  story_id s' = story_id s ∧ slug s' = slug s ∧ name s' = name s ∧
  full_slug s' = full_slug s ∧ localized_paths s' = localized_paths s ∧
  other_fields s' = other_fields s.

(** [e] holds what two calls of [evs] returned for slug and name of [story]
    in the language of [e]. *)
Definition entry_from (slugify : string → string) (source : option jsval)
    (story : Story) (evs : list event) (e : TranslatedSlug) : Prop :=
  ∃ r1 r2,
    In (EvTranslate (slug story) source (ts_lang e) (Some r1)) evs ∧
    In (EvTranslate (name story) source (ts_lang e) (Some r2)) evs ∧
    ts_slug e = slugify (text r1) ∧ ts_name e = text r2.

(** The calls of the translator in a trace, with their answers. *)
Definition translate_events (tr : list event) : list event :=
  List.filter is_translate tr.

(** The two answered calls for one locale of [story]: the slug (line 223),
    then the name (line 229). *)
Definition answered_calls (source : option jsval) (story : Story)
    (p : string * (TextResult * TextResult)) : list event :=
  [EvTranslate (slug story) source p.1 (Some p.2.1);
   EvTranslate (name story) source p.1 (Some p.2.2)].

(** The entry that lines 236 to 240 push from the two answers: the locale,
    the slugified translation of the slug (line 226) and the translation of
    the name. *)
Definition entry_of (slugify : string → string)
    (p : string * (TextResult * TextResult)) : TranslatedSlug :=
  {| ts_lang := p.1; ts_slug := slugify (text p.2.1); ts_name := text p.2.2 |}.

(** [s'] is [s] with the entries [added] pushed, the list being created only
    when [s] had none and something is pushed. *)
Definition pushed (s s' : Story) (added : list TranslatedSlug) : Prop :=
  same_but_translated_slugs s s' ∧
  translated_slugs_attributes s' =
    match added with
    | [] => translated_slugs_attributes s
    | _ :: _ => Some (default [] (translated_slugs_attributes s) ++ added)
    end.

(** A world in which nothing goes wrong: every request is answered, every
    story has [localized_paths], and the translator always detects the same
    source language. *)
Definition cooperative (W : World) : Prop :=
  (∀ h, is_Some (getSpaceLanguages W h)) ∧
  (∀ h, is_Some (getAllStories W h)) ∧
  (∀ h i, ∃ s, getStory W h i = Some s ∧ is_Some (localized_paths s)) ∧
  (∃ d, ∀ h txt source target,
     ∃ r, translateText W h txt source target = Some r ∧ detectedSourceLang r = d).

(** The script has remembered no source language but [d]. *)
Definition detected_among (d : string) (st : state) : Prop :=
  st_detectedSourceLang st = None ∨ st_detectedSourceLang st = Some d.

(** From a state that satisfies [J], [m] goes on (it does not stop the
    process) and leaves a state that satisfies [J]. *)
Definition succeeds {A : Type} (J : state → Prop) (m : M A) : Prop :=
  ∀ st, J st → ∃ a st', m st = (Ok a, st') ∧ J st'.

(** ** Vocabulary of the further properties *)

(** The ids of the PUT requests of a trace, in order. *)
Definition put_id (e : event) : option Z :=
  match e with
  | EvPut i _ => Some i
  | _ => None
  end.

Definition put_ids (tr : list event) : list Z := omap put_id tr.

(** The line of line 139. *)
Definition is_detection_error (e : event) : bool :=
  match e with
  | EvLog (ErrDetectedSourceLang _ _) => true
  | _ => false
  end.

(** The source language a call of the translator was given is [source]. *)
Definition translated_from (source : option jsval) (e : event) : Prop :=
  match e with
  | EvTranslate _ src _ _ => src = source
  | _ => True
  end.

(** [l.join(sep)] for a separator of one character. *)
Fixpoint join_with (sep : ascii) (l : list string) : string :=
  match l with
  | [] => EmptyString
  | [piece] => piece
  | piece :: rest => piece +:+ String sep (join_with sep rest)
  end.

Fixpoint contains_char (c : ascii) (s : string) : bool :=
  match s with
  | EmptyString => false
  | String c' rest => Ascii.eqb c' c || contains_char c rest
  end.

(** The flags whose value the script splits at the commas (lines 109 to
    115), in the order of the script. *)
Definition list_flags : list string :=
  ["content-types"; "locales"; "skip-stories"; "only-stories"].

(** A truthy value that has no [split]: anything but a string. *)
Definition unsplittable (v : option jsval) : bool :=
  truthy_opt v && match v with
                  | Some (JStr _) => false
                  | _ => true
                  end.

(** The story is written in a live run whose loops come to their end: it
    was fetched with the key [translated_slugs_attributes], or one of its
    locales is not skipped. *)
Definition is_written (args : gmap string jsval) (locales : list string)
    (story : Story) : bool :=
  match translated_slugs_attributes story, translated_locales args story locales with
  | None, [] => false
  | _, _ => true
  end.

(** Inputs of the examples below. *)
Definition overwrite_args : gmap string jsval :=
  <["overwrite" := JBool true]> example_args.

Definition pinned_args : gmap string jsval :=
  <["source-lang" := JStr "en"]> example_args.



(** A space whose second story cannot be fetched. *)
Definition failing_world : World :=
  {| translateText := example_translateText;
     getSpaceLanguages := λ _, Some ["de"; "fr"];
     getAllStories := λ _, Some example_items;
     getStory := λ _ i, if i =? 2 then None else Some story_home;
     putStory := λ _ _ _, true |}.

(** * Properties *)

(** ** The monad *)

Lemma bind_unfold {A B : Type} (m : M A) (f : A → M B) (st : state) :
  (m ≫= f) st =
  match m st with
  | (Ok a, st') => f a st'
  | (Halt h, st') => (Halt h, st')
  end.
Proof. reflexivity. Qed.

Lemma bind_Ok {A B : Type} (m : M A) (f : A → M B) (st st' : state) (b : B) :
  (m ≫= f) st = (Ok b, st') →
  ∃ a st1, m st = (Ok a, st1) ∧ f a st1 = (Ok b, st').
Proof.
  rewrite bind_unfold. destruct (m st) as [[a|h] st1]; [eauto | discriminate].
Qed.

Lemma bind_Halt {A B : Type} (m : M A) (f : A → M B) (st st' : state) (h : halt) :
  (m ≫= f) st = (Halt h, st') →
  m st = (Halt h, st') ∨ ∃ a st1, m st = (Ok a, st1) ∧ f a st1 = (Halt h, st').
Proof.
  rewrite bind_unfold. destruct (m st) as [[a|h'] st1]; [eauto | intros [= <- <-]; eauto].
Qed.

(** ** Configuration *)

Lemma includes_In (l : list string) (x : string) : includes l x = true ↔ In x l.
Proof.
  unfold includes. rewrite existsb_exists. split.
  - intros (y & Hy & Heq). apply String.eqb_eq in Heq. by subst.
  - intros Hx. exists x. split; [done | apply String.eqb_refl].
Qed.

Lemma required_Ok args env flag var msg st v st' :
  required args env flag var msg st = (Ok v, st') →
  st' = st ∧ v = js_or (args !! flag) (env_val env var) ∧ missing args env flag var = false.
Proof.
  unfold required, when. destruct (missing args env flag var).
  - rewrite !bind_unfold. discriminate.
  - rewrite bind_unfold. unfold mret, M_ret. intros [= <- <-]. done.
Qed.

Lemma resolve_region_Ok args env st r st' :
  resolve_region args env st = (Ok r, st') →
  st' = st ∧ bad_region args env = false ∧
  if has_key args "region" || truthy_opt (env_val env "STORYBLOK_REGION")
  then js_or (args !! "region") (env_val env "STORYBLOK_REGION") = Some (JStr r)
  else r = "eu".
Proof.
  unfold resolve_region, bad_region.
  destruct (has_key args "region" || _).
  - destruct (js_or (args !! "region") _) as [[| |s|]|];
      try (rewrite bind_unfold; discriminate).
    destruct (includes regions s).
    + unfold mret, M_ret. by intros [= <- <-].
    + rewrite bind_unfold; discriminate.
  - unfold mret, M_ret. by intros [= <- <-].
Qed.

Lemma split_arg_Ok v dflt st l st' :
  split_arg v dflt st = (Ok l, st') →
  st' = st ∧
  ((truthy_opt v = false ∧ l = dflt) ∨
   (∃ s, v = Some (JStr s) ∧ truthy (JStr s) = true ∧ l = split_on "," s)).
Proof.
  unfold split_arg. destruct (truthy_opt v) eqn:Hv.
  - destruct v as [[| |s|]|]; try discriminate.
    unfold mret, M_ret. intros [= <- <-]. split; [done |]. right. by exists s.
  - unfold mret, M_ret. intros [= <- <-]. auto.
Qed.

Lemma resolve_config_Ok args env st cfg st' :
  resolve_config args env st = (Ok cfg, st') →
  st' = st ∧
  (oauthToken cfg = js_or (args !! "token") (env_val env "STORYBLOK_OAUTH_TOKEN") ∧
   spaceId cfg = js_or (args !! "space") (env_val env "STORYBLOK_SPACE_ID") ∧
   deeplApiKey cfg = js_or (args !! "deepl-api-key") (env_val env "DEEPL_API_KEY") ∧
   verbose cfg = has_key args "verbose" ∧
   sourceLang cfg = js_or (args !! "source-lang") None) ∧
  resolve_region args env st = (Ok (region cfg), st) ∧
  split_arg (args !! "content-types") ["page"] st = (Ok (contentTypes cfg), st) ∧
  split_arg (args !! "locales") [] st = (Ok (locales cfg), st) ∧
  split_arg (args !! "skip-stories") [] st = (Ok (skipStories cfg), st) ∧
  split_arg (args !! "only-stories") [] st = (Ok (onlyStories cfg), st).
Proof.
  unfold resolve_config. intros H.
  apply bind_Ok in H as (tok & s1 & Htok & H).
  apply required_Ok in Htok as (-> & -> & _).
  apply bind_Ok in H as (sp & s2 & Hsp & H).
  apply required_Ok in Hsp as (-> & -> & _).
  apply bind_Ok in H as (rg & s3 & Hrg & H).
  pose proof (resolve_region_Ok _ _ _ _ _ Hrg) as (-> & _).
  apply bind_Ok in H as (key & s4 & Hkey & H).
  apply required_Ok in Hkey as (-> & -> & _).
  apply bind_Ok in H as (ct & s5 & Hct & H).
  pose proof (split_arg_Ok _ _ _ _ _ Hct) as (-> & _).
  apply bind_Ok in H as (lc & s6 & Hlc & H).
  pose proof (split_arg_Ok _ _ _ _ _ Hlc) as (-> & _).
  apply bind_Ok in H as (sk & s7 & Hsk & H).
  pose proof (split_arg_Ok _ _ _ _ _ Hsk) as (-> & _).
  apply bind_Ok in H as (on & s8 & Hon & H).
  pose proof (split_arg_Ok _ _ _ _ _ Hon) as (-> & _).
  unfold mret, M_ret in H. injection H as <- <-. simpl. done.
Qed.

Lemma js_or_truthy (v : jsval) (b : option jsval) :
  truthy v = true → js_or (Some v) b = Some v.
Proof. unfold js_or. simpl. by intros ->. Qed.

Lemma js_or_absent (b : option jsval) : js_or None b = b.
Proof. reflexivity. Qed.

(** ** Invariants of a run *)

Section Invariant.
Context (slugify : string → string) (W : World) (args : gmap string jsval).
Variable I : state → Prop.
Variable F : halt → state → Prop.

Hypothesis I_quiet : ∀ e st,
  is_translate e = false → is_put e = false → I st → I (emit e st).2.
Hypothesis F_exit1 : ∀ st, I st → F (Exit 1) st.
Hypothesis F_throw : ∀ e st, I st → F (Throw e) st.
Hypothesis I_translate : ∀ cfg txt target,
  sourceLang cfg = js_or (args !! "source-lang") None →
  maintains I F (translate W cfg txt target).
Hypothesis I_put :
  truthy_opt (args !! "dry-run") = false →
  ∀ i body, maintains I F (put_story_request W i body).
Hypothesis F_report : ∀ st,
  I st → F (Exit 0) (emit (EvLog (TotalBilled (st_totalBilledCharacters st))) st).2.
Hypothesis F_help : ∀ st,
  has_key args "help" = true → I st → F (Exit 0) (emit (EvLog Usage) st).2.

Lemma maintains_ret {A : Type} (a : A) : maintains I F (mret a).
Proof. intros st HI. exact HI. Qed.

Lemma maintains_bind {A B : Type} (m : M A) (f : A → M B) :
  maintains I F m → (∀ a, maintains I F (f a)) → maintains I F (m ≫= f).
Proof.
  intros Hm Hf st HI. rewrite bind_unfold. specialize (Hm st HI).
  destruct (m st) as [[a|h] st1]; [by apply Hf | done].
Qed.

Lemma maintains_log (l : line) : maintains I F (console_log l).
Proof. intros st HI. by apply (I_quiet (EvLog l)). Qed.

Lemma maintains_exit1 {A : Type} : maintains I F (@process_exit A 1).
Proof. intros st HI. by apply F_exit1. Qed.

Lemma maintains_throw {A : Type} (e : error) : maintains I F (@throw A e).
Proof. intros st HI. by apply F_throw. Qed.

Lemma maintains_when (b : bool) (m : M unit) :
  maintains I F m → maintains I F (when b m).
Proof. destruct b; [done | intros _; apply maintains_ret]. Qed.

Lemma maintains_get_state : maintains I F get_state.
Proof. intros st HI. exact HI. Qed.

Lemma maintains_get_space_languages : maintains I F (get_space_languages W).
Proof.
  intros st HI. unfold get_space_languages.
  pose proof (I_quiet EvGetSpace st eq_refl eq_refl HI) as HI'.
  destruct (emit EvGetSpace st) as [u st'].
  destruct (getSpaceLanguages W (trace st)); [done | by apply F_throw].
Qed.

Lemma maintains_get_all_stories : maintains I F (get_all_stories W).
Proof.
  intros st HI. unfold get_all_stories.
  pose proof (I_quiet EvGetAll st eq_refl eq_refl HI) as HI'.
  destruct (emit EvGetAll st) as [u st'].
  destruct (getAllStories W (trace st)); [done | by apply F_throw].
Qed.

Lemma maintains_get_story (i : Z) : maintains I F (get_story W i).
Proof.
  intros st HI. unfold get_story.
  pose proof (I_quiet (EvGetStory i) st eq_refl eq_refl HI) as HI'.
  destruct (emit (EvGetStory i) st) as [u st'].
  destruct (getStory W (trace st) i); [done | by apply F_throw].
Qed.

Ltac maintain :=
  repeat first
    [ apply maintains_ret
    | apply maintains_log
    | apply maintains_exit1
    | apply maintains_throw
    | apply maintains_get_state
    | apply maintains_get_space_languages
    | apply maintains_get_all_stories
    | apply maintains_get_story
    | apply maintains_when
    | apply maintains_bind; [| intros ?] ].

Lemma maintains_split_arg (v : option jsval) (dflt : list string) :
  maintains I F (split_arg v dflt).
Proof.
  unfold split_arg. destruct (truthy_opt v); [| maintain].
  destruct v as [[]|]; maintain.
Qed.

Lemma maintains_required (env : gmap string string) (flag var msg : string) :
  maintains I F (required args env flag var msg).
Proof. unfold required. maintain. Qed.

Lemma maintains_resolve_region (env : gmap string string) :
  maintains I F (resolve_region args env).
Proof.
  unfold resolve_region.
  destruct (has_key args "region" || _); [| maintain].
  destruct (js_or (args !! "region") _) as [[]|]; maintain.
  destruct (includes regions _); maintain.
Qed.

Lemma maintains_resolve_config (env : gmap string string) :
  maintains I F (resolve_config args env).
Proof.
  unfold resolve_config.
  repeat first
    [ apply maintains_required | apply maintains_resolve_region
    | apply maintains_split_arg | apply maintains_ret
    | apply maintains_bind; [| intros ?] ].
Qed.

Section WithConfig.
Variable cfg : RunConfig.
Hypothesis Hsource : sourceLang cfg = js_or (args !! "source-lang") None.

Lemma maintains_resolve_locales : maintains I F (resolve_locales W cfg).
Proof. unfold resolve_locales. destruct (_ =? _)%nat; maintain. Qed.

Lemma maintains_general_information (locales : list string) :
  maintains I F (general_information args cfg locales).
Proof. unfold general_information. maintain. Qed.

Lemma maintains_fetch_stories (storyList : list StoryListItem) :
  ∀ stories, maintains I F (fetch_stories W cfg storyList stories).
Proof.
  induction storyList as [|story rest IH]; intros stories; simpl; [maintain |].
  destruct (story_filter cfg story); [| apply IH].
  maintain. apply IH.
Qed.

Lemma maintains_process_locale (story : Story) (locale : string) :
  maintains I F (process_locale slugify W args cfg story locale).
Proof.
  unfold process_locale. destruct (localized_paths story) as [paths|]; [| maintain].
  destruct (skip_locale args paths locale); [maintain |].
  apply maintains_bind; [by apply I_translate | intros ?].
  apply maintains_bind; [by apply I_translate | intros ?].
  maintain.
Qed.

Lemma maintains_translate_locales (locales : list string) :
  ∀ story, maintains I F (translate_locales slugify W args cfg story locales).
Proof.
  induction locales as [|locale rest IH]; intros story; simpl; [maintain |].
  apply maintains_bind; [apply maintains_process_locale | intros ?; apply IH].
Qed.

Lemma maintains_write_story (story : Story) :
  maintains I F (write_story W args cfg story).
Proof.
  unfold write_story.
  destruct (translated_slugs_attributes story); [| maintain].
  maintain. destruct (truthy_opt (args !! "dry-run")) eqn:Hdry; [maintain |].
  apply maintains_bind; [by apply I_put | intros ?]. maintain.
Qed.

Lemma maintains_process_story (locales : list string) (story : Story) :
  maintains I F (process_story slugify W args cfg locales story).
Proof.
  unfold process_story. maintain.
  - apply maintains_translate_locales.
  - apply maintains_write_story.
Qed.

Lemma maintains_process_stories (locales : list string) (stories : list Story) :
  maintains I F (process_stories slugify W args cfg locales stories).
Proof.
  induction stories as [|story rest IH]; simpl; [maintain |].
  apply maintains_bind; [apply maintains_process_story | intros ?; apply IH].
Qed.

Lemma maintains_prepare : maintains I F (prepare W args cfg).
Proof.
  unfold prepare.
  repeat first
    [ apply maintains_resolve_locales | apply maintains_general_information
    | apply maintains_fetch_stories | apply maintains_ret
    | apply maintains_log | apply maintains_get_all_stories
    | apply maintains_bind; [| intros ?] ].
Qed.

Lemma maintains_report : maintains I F report.
Proof.
  unfold report.
  apply maintains_bind; [apply maintains_log | intros _].
  apply maintains_bind; [apply maintains_log | intros _].
  intros st HI. by apply F_report.
Qed.

Lemma maintains_run_with_config :
  maintains I F (run_with_config slugify W args cfg).
Proof.
  unfold run_with_config.
  apply maintains_bind; [apply maintains_prepare | intros prepared].
  apply maintains_bind; [apply maintains_process_stories | intros _].
  apply maintains_report.
Qed.
End WithConfig.

Lemma maintains_main (env : gmap string string) :
  maintains I F (main slugify W args env).
Proof.
  unfold main. destruct (has_key args "help") eqn:Hhelp.
  - intros st HI. by apply F_help.
  - intros st HI. rewrite bind_unfold.
    pose proof (maintains_resolve_config env st HI) as Hcfg.
    destruct (resolve_config args env st) as [[cfg|h] st1] eqn:E; [| done].
    apply resolve_config_Ok in E as (-> & (_ & _ & _ & _ & Hsrc) & _).
    by apply maintains_run_with_config.
Qed.
End Invariant.

(** ** Flags and environment variables *)

(** C2, as the code has it: when the configuration resolves, each of the
    four values that have a flag and an environment variable is the value of
    the flag whenever the flag is given with a truthy value (anything but the
    empty string, 0 or false), whatever the environment variable holds; when
    the flag is absent the value is the one of the environment variable, and
    for the region ['eu'] when that is unset or empty too. *)
Theorem flag_wins_when_truthy args env st cfg st' :
  resolve_config args env st = (Ok cfg, st') →
  (∀ v, args !! "token" = Some v → truthy v = true → oauthToken cfg = Some v) ∧
  (∀ v, args !! "space" = Some v → truthy v = true → spaceId cfg = Some v) ∧
  (∀ v, args !! "region" = Some v → truthy v = true → JStr (region cfg) = v) ∧
  (∀ v, args !! "deepl-api-key" = Some v → truthy v = true → deeplApiKey cfg = Some v) ∧
  (args !! "token" = None → oauthToken cfg = env_val env "STORYBLOK_OAUTH_TOKEN") ∧
  (args !! "space" = None → spaceId cfg = env_val env "STORYBLOK_SPACE_ID") ∧
  (args !! "region" = None →
     if truthy_opt (env_val env "STORYBLOK_REGION")
     then env_val env "STORYBLOK_REGION" = Some (JStr (region cfg))
     else region cfg = "eu") ∧
  (args !! "deepl-api-key" = None → deeplApiKey cfg = env_val env "DEEPL_API_KEY").
Proof.
  intros H.
  apply resolve_config_Ok in H as (-> & (Htok & Hsp & Hkey & _ & _) & Hrg & _).
  apply resolve_region_Ok in Hrg as (_ & _ & Hrg).
  rewrite Htok, Hsp, Hkey. repeat split.
  - intros v -> Hv. by apply js_or_truthy.
  - intros v -> Hv. by apply js_or_truthy.
  - intros v Hflag Hv. unfold has_key in Hrg. rewrite Hflag in Hrg.
    rewrite bool_decide_eq_true_2 in Hrg by eauto. simpl in Hrg.
    rewrite js_or_truthy in Hrg by done. congruence.
  - intros v -> Hv. by apply js_or_truthy.
  - by intros ->.
  - by intros ->.
  - intros Hflag. unfold has_key in Hrg. rewrite Hflag in Hrg.
    rewrite bool_decide_eq_false_2 in Hrg by (intros [? ?]; discriminate).
    rewrite js_or_absent in Hrg. simpl in Hrg.
    destruct (truthy_opt (env_val env "STORYBLOK_REGION")); done.
  - by intros ->.
Qed.

Lemma flag_wins_when_truthy_witness :
  oauthToken example_config = Some (JStr "1234567890abcdef") ∧
  JStr (region example_config) = JStr "us".
Proof.
  destruct (flag_wins_when_truthy (<["region" := JStr "us"]> example_args) example_env
              initial_state example_config initial_state)
    as (Htok & _ & Hrg & _).
  - vm_compute. reflexivity.
  - split.
    + apply Htok; vm_compute; reflexivity.
    + apply Hrg; vm_compute; reflexivity.
Defined.

(** C2 as it is written fails: with [--token ""] the flag is supplied (line
    71 finds the key in [args] and does not complain), yet the token that is
    used is the one of the environment variable. *)
Lemma flag_value_not_used :
  args_empty_token !! "token" = Some (JStr "") ∧
  ∃ cfg, resolve_config args_empty_token example_env initial_state = (Ok cfg, initial_state) ∧
         oauthToken cfg = Some (JStr "token-of-the-environment") ∧
         oauthToken cfg ≠ args_empty_token !! "token".
Proof.
  split; [vm_compute; reflexivity |].
  eexists. split; [vm_compute; reflexivity |].
  split; [reflexivity | vm_compute; discriminate].
Qed.


(** ** Missing credentials *)

Lemma required_missing args env flag var msg st :
  missing args env flag var = true →
  required args env flag var msg st = (Halt (Exit 1), (emit (EvLog (Text msg)) st).2).
Proof. unfold required, when. intros ->. reflexivity. Qed.

Lemma required_present args env flag var msg st :
  missing args env flag var = false →
  required args env flag var msg st = (Ok (js_or (args !! flag) (env_val env var)), st).
Proof. unfold required, when. intros ->. reflexivity. Qed.

Lemma resolve_region_bad args env st :
  bad_region args env = true →
  resolve_region args env st = (Halt (Exit 1), (emit (EvLog (Text msg_region)) st).2).
Proof.
  unfold resolve_region, bad_region.
  destruct (has_key args "region" || _); [| discriminate].
  destruct (js_or (args !! "region") _) as [[| |s|]|]; try reflexivity.
  destruct (includes regions s); [discriminate | reflexivity].
Qed.

Lemma resolve_region_good args env st :
  bad_region args env = false →
  ∃ r, resolve_region args env st = (Ok r, st).
Proof.
  unfold resolve_region, bad_region.
  destruct (has_key args "region" || _); [| by eexists].
  destruct (js_or (args !! "region") _) as [[| |s|]|]; try discriminate.
  destruct (includes regions s); [by eexists | discriminate].
Qed.

(** C7, as the code has it: unless [--help] is given, a run in which one of
    the three required values is given neither as flag nor as (non-empty)
    environment variable prints exactly one line and exits with code 1, with
    no request sent.  The line is the first complaint in the order of the
    checks: the token, then the space id, then an invalid region, then the
    DeepL key; so it names the missing value except when only the DeepL key
    is missing and the region is invalid. *)
Theorem missing_credential_exit slugify W args env :
  has_key args "help" = false →
  missing args env "token" "STORYBLOK_OAUTH_TOKEN" = true ∨
  missing args env "space" "STORYBLOK_SPACE_ID" = true ∨
  missing args env "deepl-api-key" "DEEPL_API_KEY" = true →
  run slugify W args env =
    (Halt (Exit 1),
     {| st_detectedSourceLang := None; st_totalBilledCharacters := 0;
        trace := [EvLog (Text (first_complaint args env))] |}).
Proof.
  intros Hhelp Hmiss. unfold run, main, first_complaint. rewrite Hhelp.
  rewrite bind_unfold. unfold resolve_config. rewrite bind_unfold.
  destruct (missing args env "token" _) eqn:Htok.
  { by rewrite required_missing. }
  rewrite required_present by done. rewrite bind_unfold.
  destruct (missing args env "space" _) eqn:Hsp.
  { by rewrite required_missing. }
  rewrite required_present by done. rewrite bind_unfold.
  destruct (bad_region args env) eqn:Hrg.
  { by rewrite resolve_region_bad. }
  destruct (resolve_region_good args env initial_state Hrg) as [r ->].
  rewrite bind_unfold.
  destruct Hmiss as [? | [? | Hkey]]; [discriminate | discriminate |].
  by rewrite required_missing.
Qed.

Lemma missing_credential_exit_witness :
  run slugify_model (example_world example_items)
      (delete "deepl-api-key" example_args) example_env =
    (Halt (Exit 1),
     {| st_detectedSourceLang := None; st_totalBilledCharacters := 0;
        trace := [EvLog (Text msg_deepl)] |}).
Proof.
  assert (first_complaint (delete "deepl-api-key" example_args) example_env = msg_deepl)
    as <- by (vm_compute; reflexivity).
  apply (missing_credential_exit slugify_model (example_world example_items)
           (delete "deepl-api-key" example_args) example_env).
  - vm_compute. reflexivity.
  - right. right. vm_compute. reflexivity.
Defined.

(** C7 as it is written fails: with [--help] and no credentials at all the
    process prints the usage and exits with code 0. *)
Lemma help_without_credentials_exits_0 :
  missing {[ "help" := JBool true ]} ∅ "token" "STORYBLOK_OAUTH_TOKEN" = true ∧
  run slugify_model (example_world example_items) {[ "help" := JBool true ]} ∅ =
    (Halt (Exit 0),
     {| st_detectedSourceLang := None; st_totalBilledCharacters := 0;
        trace := [EvLog Usage] |}).
Proof. split; vm_compute; reflexivity. Qed.

(** ** The story filter *)

Lemma get_story_Ok W i st s st' :
  get_story W i st = (Ok s, st') →
  getStory W (trace st) i = Some s ∧ st' = (emit (EvGetStory i) st).2.
Proof.
  unfold get_story. simpl. destruct (getStory W (trace st) i); [| discriminate].
  by intros [= <- <-].
Qed.


Lemma fetch_stories_Ok W cfg storyList :
  ∀ stories0 st stories st',
    fetch_stories W cfg storyList stories0 st = (Ok stories, st') →
    trace st' = trace st ++
      map (λ item, EvGetStory (item_id item)) (List.filter (story_filter cfg) storyList) ∧
    st_detectedSourceLang st' = st_detectedSourceLang st ∧
    st_totalBilledCharacters st' = st_totalBilledCharacters st ∧
    ∃ fetched,
      stories = stories0 ++ fetched ∧
      Forall2 (λ item s, ∃ h, getStory W h (item_id item) = Some s)
              (List.filter (story_filter cfg) storyList) fetched.
Proof.
  induction storyList as [|item rest IH]; intros stories0 st stories st'; simpl.
  - unfold mret, M_ret. intros [= <- <-]. rewrite app_nil_r.
    repeat split. exists []. by rewrite app_nil_r.
  - destruct (story_filter cfg item) eqn:Hsel; [| apply IH].
    intros H. apply bind_Ok in H as (s & st1 & Hget & H).
    apply get_story_Ok in Hget as (Hs & ->).
    apply IH in H as (Htr & Hd & Ht & fetched & -> & Hall).
    simpl in *. rewrite Htr, <- app_assoc. repeat split; try done.
    exists (s :: fetched). rewrite <- app_assoc. split; [done |].
    constructor; eauto.
Qed.



(** ** Slugification *)

Lemma allowed_char_fixed (c : ascii) :
  allowed_char c = true →
  lower_char c = c ∧ strip_diacritic c = c ∧ hyphen_char c = c.
Proof.
  destruct c as [[] [] [] [] [] [] [] []]; vm_compute; intros H;
    try discriminate H; repeat split.
Qed.

Lemma map_chars_kept (f : ascii → ascii) (s : string) :
  (∀ c, allowed_char c = true → f c = c) →
  map_chars f (keep_chars allowed_char s) = keep_chars allowed_char s.
Proof.
  intros Hf. induction s as [|c s IH]; simpl; [done |].
  destruct (allowed_char c) eqn:Hc; [| done].
  simpl. by rewrite IH, Hf.
Qed.

Lemma keep_chars_idempotent (p : ascii → bool) (s : string) :
  keep_chars p (keep_chars p s) = keep_chars p s.
Proof.
  induction s as [|c s IH]; simpl; [done |].
  destruct (p c) eqn:Hc; [| done].
  simpl. by rewrite Hc, IH.
Qed.

(** C9, on the model of [slugify] that follows the rules the spec gives:
    slugifying a slugified string changes nothing. *)
Theorem slugify_model_idempotent (s : string) :
  slugify_model (slugify_model s) = slugify_model s.
Proof.
  unfold slugify_model.
  rewrite (map_chars_kept lower_char) by (intros c Hc; by apply allowed_char_fixed).
  rewrite (map_chars_kept strip_diacritic) by (intros c Hc; by apply allowed_char_fixed).
  rewrite (map_chars_kept hyphen_char) by (intros c Hc; by apply allowed_char_fixed).
  apply keep_chars_idempotent.
Qed.

(** ** Calls of the translator *)

Lemma sum_billed_app (tr1 tr2 : list event) :
  sum_billed (tr1 ++ tr2) = sum_billed tr1 + sum_billed tr2.
Proof. unfold sum_billed. induction tr1 as [|e tr1 IH]; simpl; lia. Qed.

Lemma calls_app (tr1 tr2 : list event) : calls (tr1 ++ tr2) = calls tr1 ++ calls tr2.
Proof. apply omap_app. Qed.

Lemma detections_app (tr1 tr2 : list event) :
  detections (tr1 ++ tr2) = detections tr1 ++ detections tr2.
Proof. apply omap_app. Qed.

(** All the ways [translate] can go, with the state it leaves. *)
Lemma translate_unfold W cfg txt target st :
  translate W cfg txt target st =
  match translateText W (trace st) txt (sourceLang cfg) target with
  | None =>
      (Halt (Throw (ApiError "translateText")),
       {| st_detectedSourceLang := st_detectedSourceLang st;
          st_totalBilledCharacters := st_totalBilledCharacters st;
          trace := trace st ++ [EvTranslate txt (sourceLang cfg) target None] |})
  | Some r =>
      let tr := trace st ++ [EvTranslate txt (sourceLang cfg) target (Some r)] in
      let total := st_totalBilledCharacters st + billedCharacters r in
      let first_detection :=
        (Ok (text r),
         {| st_detectedSourceLang := Some (detectedSourceLang r);
            st_totalBilledCharacters := total; trace := tr |}) in
      let unchanged :=
        (Ok (text r),
         {| st_detectedSourceLang := st_detectedSourceLang st;
            st_totalBilledCharacters := total; trace := tr |}) in
      match sourceLang cfg with
      | Some _ => unchanged
      | None =>
          match st_detectedSourceLang st with
          | None => first_detection
          | Some previous =>
              if String.eqb previous "" then first_detection
              else if negb (String.eqb (detectedSourceLang r) previous) then
                (Halt (Exit 1),
                 {| st_detectedSourceLang := st_detectedSourceLang st;
                    st_totalBilledCharacters := total;
                    trace := tr ++ [EvLog (ErrDetectedSourceLang
                                             (detectedSourceLang r) previous)] |})
              else unchanged
          end
      end
  end.
Proof.
  unfold translate, translator_translateText. rewrite bind_unfold. simpl.
  destruct (translateText W (trace st) txt (sourceLang cfg) target) as [r|]; [| done].
  rewrite bind_unfold. simpl. rewrite bind_unfold.
  destruct (sourceLang cfg); [done |]. rewrite bind_unfold. simpl.
  destruct (st_detectedSourceLang st) as [previous|]; [| done].
  destruct (String.eqb previous ""); [done |].
  destruct (negb _); done.
Qed.

Lemma translate_calls W cfg txt target st :
  ∃ evs, trace (translate W cfg txt target st).2 = trace st ++ evs ∧
         calls evs = [(txt, target)] ∧
         Forall (λ e, is_put e = false) evs.
Proof.
  rewrite translate_unfold.
  destruct (translateText W (trace st) txt (sourceLang cfg) target) as [r|]; simpl.
  - destruct (sourceLang cfg); simpl;
      [eexists; split; [reflexivity | split; [reflexivity | by repeat constructor]] |].
    destruct (st_detectedSourceLang st) as [previous|]; simpl;
      [| eexists; split; [reflexivity | split; [reflexivity | by repeat constructor]]].
    destruct (String.eqb previous ""); simpl;
      [eexists; split; [reflexivity | split; [reflexivity | by repeat constructor]] |].
    destruct (negb _); simpl;
      [| eexists; split; [reflexivity | split; [reflexivity | by repeat constructor]]].
    rewrite <- app_assoc.
    eexists; split; [reflexivity | split; [reflexivity | by repeat constructor]].
  - eexists; split; [reflexivity | split; [reflexivity | by repeat constructor]].
Qed.

Lemma translate_Ok W cfg txt target st t st' :
  translate W cfg txt target st = (Ok t, st') →
  ∃ r, translateText W (trace st) txt (sourceLang cfg) target = Some r ∧
       t = text r ∧
       trace st' = trace st ++ [EvTranslate txt (sourceLang cfg) target (Some r)].
Proof.
  rewrite translate_unfold.
  destruct (translateText W (trace st) txt (sourceLang cfg) target) as [r|];
    [| discriminate].
  simpl. intros H. exists r. split; [done |].
  destruct (sourceLang cfg); [by injection H as <- <- |].
  destruct (st_detectedSourceLang st) as [previous|]; [| by injection H as <- <-].
  destruct (String.eqb previous ""); [by injection H as <- <- |].
  destruct (negb _); [discriminate | by injection H as <- <-].
Qed.

(** [translate] stops the process in two ways only: the request fails, or
    line 142. *)
Lemma translate_Halt W cfg txt target st h st' :
  translate W cfg txt target st = (Halt h, st') →
  (h = Throw (ApiError "translateText") ∧
   trace st' = trace st ++ [EvTranslate txt (sourceLang cfg) target None]) ∨
  (h = Exit 1 ∧ sourceLang cfg = None ∧
   ∃ r previous,
     st_detectedSourceLang st = Some previous ∧ previous ≠ "" ∧
     detectedSourceLang r ≠ previous ∧
     trace st' = trace st ++
       [EvTranslate txt None target (Some r);
        EvLog (ErrDetectedSourceLang (detectedSourceLang r) previous)]).
Proof.
  rewrite translate_unfold.
  destruct (translateText W (trace st) txt (sourceLang cfg) target) as [r|].
  - simpl. destruct (sourceLang cfg) eqn:Hsrc; [discriminate |].
    destruct (st_detectedSourceLang st) as [previous|]; [| discriminate].
    destruct (String.eqb previous "") eqn:Hempty; [discriminate |].
    destruct (String.eqb (detectedSourceLang r) previous) eqn:Hsame; [discriminate |].
    simpl. intros [= <- <-]. right. split; [done |]. split; [done |].
    exists r, previous. simpl. rewrite <- app_assoc.
    apply String.eqb_neq in Hempty, Hsame. done.
  - intros [= <- <-]. by left.
Qed.

Lemma translate_never_exits_0 W cfg txt target st st' :
  translate W cfg txt target st ≠ (Halt (Exit 0), st').
Proof.
  intros H. apply translate_Halt in H as [[H _] | [H _]]; discriminate H.
Qed.

(** ** The decision for one story and one locale *)

(** C5, as the code has it.  For a story and a locale [locale] of the list:
    when a translation for [locale] exists, is published and [--overwrite]
    is not set, nothing is translated and nothing is pushed (only the verbose
    line is printed).  Otherwise the slug is sent to the translator, then the
    name, and when both calls return the entry [{lang, slug, name}] with the
    slugified translation of the slug is pushed; when one of the two calls
    fails or line 142 detects another source language, the process stops
    there and nothing is pushed.  A story without [localized_paths] stops the
    process with code 1 before anything else. *)
Theorem locale_decision slugify W args cfg story locale st :
  let res := process_locale slugify W args cfg story locale st in
  match localized_paths story with
  | None =>
      res.1 = Halt (Exit 1) ∧
      trace res.2 = trace st ++ [EvLog (ErrLocalizedPaths (full_slug story))]
  | Some paths =>
      (skip_locale args paths locale = true ↔
         ∃ item, existingTranslation paths locale = Some item ∧
                 lp_published item = true ∧
                 truthy_opt (args !! "overwrite") = false) ∧
      if skip_locale args paths locale then
        res.1 = Ok story ∧
        trace res.2 =
          trace st ++ (if verbose cfg then [EvLog (SkippedLocale locale)] else [])
      else
        match res.1 with
        | Ok story' =>
            ∃ r1 r2,
              trace res.2 = trace st ++
                [EvTranslate (slug story) (sourceLang cfg) locale (Some r1);
                 EvTranslate (name story) (sourceLang cfg) locale (Some r2)] ∧
              story' = push_translated_slug story
                         {| ts_lang := locale; ts_slug := slugify (text r1);
                            ts_name := text r2 |}
        | Halt h =>
            ∃ evs,
              trace res.2 = trace st ++ evs ∧
              (calls evs = [(slug story, locale)] ∨
               calls evs = [(slug story, locale); (name story, locale)]) ∧
              ((h = Throw (ApiError "translateText") ∧
                ∃ txt, last evs = Some (EvTranslate txt (sourceLang cfg) locale None)) ∨
               (h = Exit 1 ∧ sourceLang cfg = None ∧
                ∃ d p, d ≠ p ∧ last evs = Some (EvLog (ErrDetectedSourceLang d p))))
        end
  end.
Proof.
  unfold process_locale. destruct (localized_paths story) as [paths|]; [| done].
  split.
  { unfold skip_locale. destruct (existingTranslation paths locale) as [item|].
    - rewrite andb_true_iff, negb_true_iff. split.
      + intros [? ?]. by exists item.
      + by intros (? & [= <-] & ? & ?).
    - split; [done | by intros (? & [=] & _)]. }
  destruct (skip_locale args paths locale).
  { destruct (verbose cfg); simpl; [done | by rewrite app_nil_r]. }
  simpl. rewrite bind_unfold.
  destruct (translate W cfg (slug story) locale st) as [[t1|h1] st1] eqn:E1.
  - apply translate_Ok in E1 as (r1 & _ & -> & Htr1). rewrite bind_unfold.
    destruct (translate W cfg (name story) locale st1) as [[t2|h2] st2] eqn:E2.
    + apply translate_Ok in E2 as (r2 & _ & -> & Htr2). simpl.
      exists r1, r2. rewrite Htr2, Htr1, <- app_assoc. done.
    + simpl. apply translate_Halt in E2
        as [(-> & Htr2) | (-> & Hsrc & r & p & _ & _ & Hne & Htr2)];
        rewrite Htr2, Htr1, <- app_assoc; eexists; (split; [reflexivity |]).
      * split; [by right |]. left. split; [done |]. by eexists.
      * rewrite Hsrc. split; [by right |]. right. repeat split; eauto.
  - simpl. apply translate_Halt in E1
      as [(-> & Htr1) | (-> & Hsrc & r & p & _ & _ & Hne & Htr1)];
      rewrite Htr1; eexists; (split; [reflexivity |]).
    + split; [by left |]. left. split; [done |]. by eexists.
    + split; [by left |]. right. repeat split; eauto.
Qed.

Lemma locale_decision_witness :
  (process_locale slugify_model (example_world example_items) example_args
     example_config story_about "de" initial_state).1 = Ok story_about.
Proof.
  pose proof (locale_decision slugify_model (example_world example_items)
                example_args example_config story_about "de" initial_state) as H.
  vm_compute in H. vm_compute. apply H.
Defined.

(** C5 as it is written fails: "de" is in the list and the second story has
    no translation for it; the translator reports French for its slug where
    it reported English for the first story, and the process exits with code
    1: the name of the second story is never sent for translation, no entry
    is pushed for it and it is not written. *)
Lemma no_entry_after_detection_mismatch :
  localized_paths story_accueil = Some [] ∧
  skip_locale example_args [] "de" = false ∧
  ∃ fin,
    run slugify_model (example_world mixed_items) example_args ∅ =
      (Halt (Exit 1), fin) ∧
    calls (trace fin) = [("home", "de"); ("Home", "de"); ("accueil", "de")] ∧
    List.filter is_put (trace fin) = [EvPut 1 home_put_body].
Proof.
  split; [reflexivity |]. split; [reflexivity |].
  eexists. split; [vm_compute; reflexivity |]. split; vm_compute; reflexivity.
Qed.

(** ** What processing a story does *)

Lemma push_translated_slug_pushed story e :
  pushed story (push_translated_slug story e) [e].
Proof.
  unfold pushed, same_but_translated_slugs, push_translated_slug.
  destruct (translated_slugs_attributes story) eqn:E; simpl; rewrite ?E; done.
Qed.

Lemma pushed_nil s : pushed s s [].
Proof. by unfold pushed, same_but_translated_slugs. Qed.

Lemma pushed_trans s s1 s2 a1 a2 :
  pushed s s1 a1 → pushed s1 s2 a2 → pushed s s2 (a1 ++ a2).
Proof.
  intros [(H1 & H2 & H3 & H4 & H5 & H6) Ha1] [(K1 & K2 & K3 & K4 & K5 & K6) Ha2].
  split; [unfold same_but_translated_slugs; repeat split; congruence |].
  rewrite Ha2. destruct a2 as [|e2 a2].
  - rewrite app_nil_r. exact Ha1.
  - rewrite Ha1. destruct a1 as [|e1 a1]; [done |].
    simpl. by rewrite <- app_assoc.
Qed.

Lemma entry_from_mono slugify source story story' evs1 evs evs2 e :
  slug story' = slug story → name story' = name story →
  entry_from slugify source story' evs e →
  entry_from slugify source story (evs1 ++ evs ++ evs2) e.
Proof.
  intros Hs Hn (r1 & r2 & H1 & H2 & H3 & H4). exists r1, r2.
  rewrite <- Hs, <- Hn, !in_app_iff. auto 6.
Qed.

Lemma no_put_app tr1 tr2 : no_put tr1 → no_put tr2 → no_put (tr1 ++ tr2).
Proof. unfold no_put. rewrite Forall_app. auto. Qed.

Lemma no_put_In tr i body : no_put tr → ¬ In (EvPut i body) tr.
Proof.
  unfold no_put. rewrite List.Forall_forall. intros H Hin.
  by specialize (H _ Hin).
Qed.

Lemma no_put_existsb tr : existsb is_put tr = false → no_put tr.
Proof.
  unfold no_put. rewrite List.Forall_forall. intros H e He.
  destruct (is_put e) eqn:Hput; [| done].
  assert (existsb is_put tr = true) by (apply existsb_exists; eauto). congruence.
Qed.

Lemma translate_delta W cfg txt target st :
  ∃ evs,
    trace (translate W cfg txt target st).2 = trace st ++ evs ∧
    calls evs = [(txt, target)] ∧ no_put evs ∧
    ∀ t, (translate W cfg txt target st).1 = Ok t →
         ∃ r, t = text r ∧ evs = [EvTranslate txt (sourceLang cfg) target (Some r)].
Proof.
  destruct (translate_calls W cfg txt target st) as (evs & Htr & Hcalls & Hput).
  exists evs. repeat split; try done.
  intros t Ht. destruct (translate W cfg txt target st) as [r st'] eqn:E.
  simpl in *. subst r. apply translate_Ok in E as (r & _ & -> & Htr').
  exists r. split; [done |]. rewrite Htr' in Htr. by apply app_inv_head in Htr.
Qed.

Section Summaries.
Context (slugify : string → string) (W : World) (args : gmap string jsval)
        (cfg : RunConfig).

Lemma story_calls_cons locale locales story :
  story_calls args (locale :: locales) story =
  story_calls args [locale] story ++ story_calls args locales story.
Proof.
  unfold story_calls, translated_locales.
  destruct (localized_paths story) as [paths|]; simpl.
  - destruct (negb (skip_locale args paths locale)); simpl; done.
  - done.
Qed.

Lemma translated_locales_cons locale locales story :
  translated_locales args story (locale :: locales) =
  translated_locales args story [locale] ++ translated_locales args story locales.
Proof.
  unfold translated_locales.
  destruct (localized_paths story) as [paths|]; simpl; [| done].
  destruct (negb (skip_locale args paths locale)); done.
Qed.

Lemma story_calls_same locales s s' :
  same_but_translated_slugs s s' →
  story_calls args locales s' = story_calls args locales s.
Proof.
  intros (_ & Hs & Hn & _ & Hp & _).
  unfold story_calls, translated_locales. by rewrite Hs, Hn, Hp.
Qed.

Lemma translated_locales_same locales s s' :
  same_but_translated_slugs s s' →
  translated_locales args s' locales = translated_locales args s locales.
Proof.
  intros (_ & _ & _ & _ & Hp & _). unfold translated_locales. by rewrite Hp.
Qed.

(** One turn of the loop over the locales. *)
Lemma process_locale_summary story locale st :
  let res := process_locale slugify W args cfg story locale st in
  ∃ evs,
    trace res.2 = trace st ++ evs ∧ no_put evs ∧
    calls evs `prefix_of` story_calls args [locale] story ∧
    ∀ story', res.1 = Ok story' →
      calls evs = story_calls args [locale] story ∧
      ∃ added,
        pushed story story' added ∧
        map ts_lang added = translated_locales args story [locale] ∧
        Forall (entry_from slugify (sourceLang cfg) story evs) added.
Proof.
  unfold process_locale, story_calls, translated_locales.
  destruct (localized_paths story) as [paths|] eqn:Hpaths; simpl.
  2: { exists [EvLog (ErrLocalizedPaths (full_slug story))].
       split; [done |]. split; [by repeat constructor |].
       split; [apply prefix_nil | done]. }
  destruct (skip_locale args paths locale); simpl.
  { exists (if verbose cfg then [EvLog (SkippedLocale locale)] else []).
    assert (no_put (if verbose cfg then [EvLog (SkippedLocale locale)] else []))
      by (destruct (verbose cfg); by repeat constructor).
    assert (calls (if verbose cfg then [EvLog (SkippedLocale locale)] else []) = [])
      as Hcalls by (by destruct (verbose cfg)).
    rewrite Hcalls.
    split; [destruct (verbose cfg); simpl; [done | by rewrite app_nil_r] |].
    split; [done |]. split; [done |].
    intros story' Hok. split; [done |]. exists [].
    assert (story' = story) as -> by (destruct (verbose cfg); by injection Hok).
    split; [apply pushed_nil | done]. }
  rewrite bind_unfold.
  destruct (translate_delta W cfg (slug story) locale st)
    as (evs1 & Htr1 & Hc1 & Hp1 & Hok1).
  destruct (translate W cfg (slug story) locale st) as [[t1|h1] st1]; simpl in *.
  2: { exists evs1. split; [done |]. split; [done |].
       split; [| done]. rewrite Hc1. by exists [(name story, locale)]. }
  destruct (Hok1 t1 eq_refl) as (r1 & -> & ->). clear Hok1.
  rewrite bind_unfold.
  destruct (translate_delta W cfg (name story) locale st1)
    as (evs2 & Htr2 & Hc2 & Hp2 & Hok2).
  destruct (translate W cfg (name story) locale st1) as [[t2|h2] st2]; simpl in *.
  2: { exists ([EvTranslate (slug story) (sourceLang cfg) locale (Some r1)] ++ evs2).
       rewrite Htr2, Htr1, <- app_assoc. split; [done |].
       split; [by apply no_put_app |].
       split; [| done]. rewrite calls_app, Hc2. done. }
  destruct (Hok2 t2 eq_refl) as (r2 & -> & ->). clear Hok2.
  eexists. rewrite Htr2, Htr1, <- app_assoc. split; [reflexivity |].
  split; [by repeat constructor |]. split; [done |].
  intros story' [= <-]. split; [done |].
  eexists. split; [apply push_translated_slug_pushed |]. split; [done |].
  constructor; [| done]. exists r1, r2. simpl. auto.
Qed.
(** The loop over the locales. *)
Lemma translate_locales_summary locales :
  ∀ story st,
    let res := translate_locales slugify W args cfg story locales st in
    ∃ evs,
      trace res.2 = trace st ++ evs ∧ no_put evs ∧
      calls evs `prefix_of` story_calls args locales story ∧
      ∀ story', res.1 = Ok story' →
        calls evs = story_calls args locales story ∧
        ∃ added,
          pushed story story' added ∧
          map ts_lang added = translated_locales args story locales ∧
          Forall (entry_from slugify (sourceLang cfg) story evs) added.
Proof.
  induction locales as [|locale rest IH]; intros story st; simpl.
  { exists []. rewrite app_nil_r. split; [done |]. split; [by constructor |].
    split; [apply prefix_nil |]. intros story' [= <-].
    split; [unfold story_calls, translated_locales;
            by destruct (localized_paths story) |]. exists [].
    split; [apply pushed_nil |]. split; [| done].
    unfold translated_locales. by destruct (localized_paths story). }
  rewrite bind_unfold, story_calls_cons, translated_locales_cons.
  destruct (process_locale_summary story locale st)
    as (evs1 & Htr1 & Hp1 & Hpre1 & Hok1).
  destruct (process_locale slugify W args cfg story locale st)
    as [[story1|h1] st1]; simpl in *.
  2: { exists evs1. split; [done |]. split; [done |].
       split; [by apply prefix_app_r | done]. }
  destruct (Hok1 story1 eq_refl) as (Hc1 & added1 & Hpush1 & Hlang1 & Hfrom1).
  clear Hok1. destruct Hpush1 as [Hsame1 Hattr1].
  destruct (IH story1 st1) as (evs2 & Htr2 & Hp2 & Hpre2 & Hok2).
  rewrite (story_calls_same rest story story1) in Hpre2, Hok2 by done.
  rewrite (translated_locales_same rest story story1) in Hok2 by done.
  exists (evs1 ++ evs2). rewrite Htr2, Htr1, <- app_assoc, calls_app, Hc1.
  split; [done |]. split; [by apply no_put_app |].
  split; [by apply prefix_app |].
  intros story' Hok. destruct (Hok2 story' Hok) as (Hc2 & added2 & Hpush2 & Hlang2 & Hfrom2).
  split; [by rewrite Hc2 |]. exists (added1 ++ added2).
  split; [by apply (pushed_trans story story1) |].
  split; [by rewrite map_app, Hlang1, Hlang2 |].
  apply Forall_app. split.
  - eapply Forall_impl; [exact Hfrom1 |]. intros e He.
    rewrite <- (app_nil_l (evs1 ++ evs2)).
    by apply (entry_from_mono slugify _ story story [] evs1 evs2).
  - eapply Forall_impl; [exact Hfrom2 |]. intros e He.
    rewrite <- (app_nil_r evs2).
    destruct Hsame1 as (_ & Hs & Hn & _).
    by apply (entry_from_mono slugify _ story story1 evs1 evs2 []).
Qed.

(** What is done with a story after the loop over the locales. *)
Lemma write_story_summary story st :
  let res := write_story W args cfg story st in
  ∃ evs,
    trace res.2 = trace st ++ evs ∧ calls evs = [] ∧
    (existsb is_put evs = true ↔
       translated_slugs_attributes story ≠ None ∧
       truthy_opt (args !! "dry-run") = false) ∧
    (∀ i body, In (EvPut i body) evs →
       i = story_id story ∧ put_story body = story ∧
       put_publish body = if truthy_opt (args !! "publish") then Some 1 else None) ∧
    (translated_slugs_attributes story = None →
       res.1 = Ok tt ∧
       evs = if verbose cfg then [EvLog (Text "No translations needed.")] else []) ∧
    (truthy_opt (args !! "dry-run") = true → res.1 = Ok tt).
Proof.
  unfold write_story.
  destruct (translated_slugs_attributes story) as [attributes|] eqn:Hattr.
  2: { exists (if verbose cfg then [EvLog (Text "No translations needed.")] else []).
       destruct (verbose cfg); simpl; rewrite ?app_nil_r;
         (split; [done |]); (split; [done |]);
         (split; [split; [discriminate | by intros [? _]] |]);
         (split; [intros i body Hin; simpl in Hin; intuition discriminate |]); done. }
  destruct (truthy_opt (args !! "dry-run")) eqn:Hdry.
  { exists (if verbose cfg
            then [EvLog (UpdatedSlugs attributes);
                  EvLog (Text "Dry-run mode. No changes performed.")]
            else []).
    destruct (verbose cfg); simpl; rewrite ?app_nil_r, <- ?app_assoc;
      (split; [done |]); (split; [done |]);
      (split; [split; [discriminate | by intros [_ ?]] |]);
      (split; [intros i body Hin; simpl in Hin; intuition discriminate |]); done. }
  unfold put_story_request.
  destruct (verbose cfg);
    cbv beta iota zeta delta
      [mbind M_bind mret M_ret when console_log emit fst snd trace
       st_detectedSourceLang st_totalBilledCharacters];
    match goal with |- context [putStory W ?tr ?i ?body] =>
      destruct (putStory W tr i body) end;
    eexists; rewrite <- ?app_assoc;
    (split; [reflexivity |]); (split; [reflexivity |]);
    (split; [done |]);
    (split; [| done]);
    intros i b Hin; simpl in Hin;
    repeat (destruct Hin as [Hin | Hin]; try discriminate Hin; try done);
    by injection Hin as <- <-.
Qed.

(** One turn of the loop over the stories. *)
Lemma process_story_summary locales story st :
  let res := process_story slugify W args cfg locales story st in
  ∃ evs,
    trace res.2 = trace st ++ evs ∧
    calls evs `prefix_of` story_calls args locales story ∧
    (∀ u, res.1 = Ok u → calls evs = story_calls args locales story) ∧
    (truthy_opt (args !! "dry-run") = true → no_put evs) ∧
    ∀ i body, In (EvPut i body) evs →
      i = story_id story ∧
      truthy_opt (args !! "dry-run") = false ∧
      translated_slugs_attributes (put_story body) ≠ None ∧
      put_publish body = (if truthy_opt (args !! "publish") then Some 1 else None) ∧
      ∃ added,
        pushed story (put_story body) added ∧
        map ts_lang added = translated_locales args story locales ∧
        Forall (entry_from slugify (sourceLang cfg) story evs) added.
Proof.
  unfold process_story. rewrite bind_unfold.
  set (evs0 := if verbose cfg
               then [EvLog (Text ""); EvLog (DefaultFullSlug (full_slug story));
                     EvLog (DefaultName (name story))]
               else []).
  assert (∃ st0, when (verbose cfg)
                   (console_log (Text "");;
                    console_log (DefaultFullSlug (full_slug story));;
                    console_log (DefaultName (name story))) st = (Ok tt, st0) ∧
                 trace st0 = trace st ++ evs0) as (st0 & -> & Htr0).
  { unfold evs0. destruct (verbose cfg); simpl.
    - eexists. split; [reflexivity |]. simpl. by rewrite <- !app_assoc.
    - eexists. split; [reflexivity |]. by rewrite app_nil_r. }
  assert (no_put evs0) as Hp0 by (unfold evs0; destruct (verbose cfg); by repeat constructor).
  assert (calls evs0 = []) as Hc0 by (unfold evs0; by destruct (verbose cfg)).
  rewrite bind_unfold.
  destruct (translate_locales_summary locales story st0)
    as (evs1 & Htr1 & Hp1 & Hpre1 & Hok1).
  destruct (translate_locales slugify W args cfg story locales st0)
    as [[story1|h1] st1]; simpl in *.
  2: { exists (evs0 ++ evs1). rewrite Htr1, Htr0, <- app_assoc, calls_app, Hc0.
       split; [done |]. split; [done |]. split; [done |].
       split; [intros _; by apply no_put_app |].
       intros i body Hin. exfalso.
       by apply (no_put_In (evs0 ++ evs1) i body); [apply no_put_app |]. }
  destruct (Hok1 story1 eq_refl) as (Hc1 & added & Hpush & Hlang & Hfrom). clear Hok1.
  destruct (write_story_summary story1 st1)
    as (evs2 & Htr2 & Hc2 & Hput2 & Hbody2 & _ & Hdry2).
  exists (evs0 ++ evs1 ++ evs2).
  rewrite Htr2, Htr1, Htr0, <- !app_assoc, !calls_app, Hc0, Hc2, Hc1, app_nil_r.
  split; [done |]. split; [done |]. split; [done |]. split.
  { intros Hdry. apply no_put_app; [done |]. apply no_put_app; [done |].
    apply no_put_existsb. destruct (existsb is_put evs2); [| done].
    destruct Hput2 as [Hput2 _]. destruct (Hput2 eq_refl). congruence. }
  intros i body Hin.
  assert (In (EvPut i body) evs2) as Hin2.
  { rewrite !in_app_iff in Hin. destruct Hin as [Hin | [Hin | Hin]]; [| | done].
    - by apply no_put_In in Hin.
    - by apply no_put_In in Hin. }
  destruct (Hbody2 i body Hin2) as (-> & -> & ->).
  assert (existsb is_put evs2 = true) as Hex
    by (apply existsb_exists; eexists; split; [exact Hin2 | done]).
  apply Hput2 in Hex as [Hsome Hdry].
  destruct Hpush as [Hsame Hattr]. pose proof Hsame as (Hid & _).
  split; [done |]. split; [done |]. split; [done |]. split; [done |].
  exists added. split; [done |]. split; [done |].
  eapply Forall_impl; [exact Hfrom |]. intros e He.
  by apply (entry_from_mono slugify _ story story evs0 evs1 evs2).
Qed.

(** The loop over the stories. *)
Lemma process_stories_summary locales stories :
  ∀ st,
    let res := process_stories slugify W args cfg locales stories st in
    ∃ evs,
      trace res.2 = trace st ++ evs ∧
      calls evs `prefix_of` flat_map (story_calls args locales) stories ∧
      (∀ u, res.1 = Ok u → calls evs = flat_map (story_calls args locales) stories) ∧
      (truthy_opt (args !! "dry-run") = true → no_put evs) ∧
      ∀ i body, In (EvPut i body) evs →
        ∃ story,
          In story stories ∧ i = story_id story ∧
          truthy_opt (args !! "dry-run") = false ∧
          translated_slugs_attributes (put_story body) ≠ None ∧
          put_publish body = (if truthy_opt (args !! "publish") then Some 1 else None) ∧
          ∃ added,
            pushed story (put_story body) added ∧
            map ts_lang added = translated_locales args story locales ∧
            Forall (entry_from slugify (sourceLang cfg) story evs) added.
Proof.
  induction stories as [|story rest IH]; intros st; simpl.
  { exists []. rewrite app_nil_r. split; [done |]. split; [done |].
    split; [done |]. split; [by constructor | by intros i body []]. }
  rewrite bind_unfold.
  destruct (process_story_summary locales story st)
    as (evs1 & Htr1 & Hpre1 & Hok1 & Hdry1 & Hput1).
  destruct (process_story slugify W args cfg locales story st)
    as [[u1|h1] st1]; simpl in *.
  2: { exists evs1. split; [done |]. split; [by apply prefix_app_r |].
       split; [done |]. split; [done |].
       intros i body Hin. exists story. split; [by left |].
       destruct (Hput1 i body Hin) as (? & ? & ? & ? & ?). done. }
  specialize (Hok1 u1 eq_refl).
  destruct (IH st1) as (evs2 & Htr2 & Hpre2 & Hok2 & Hdry2 & Hput2).
  exists (evs1 ++ evs2). rewrite Htr2, Htr1, <- app_assoc, calls_app, Hok1.
  split; [done |]. split; [by apply prefix_app |].
  split; [intros u Hu; by rewrite (Hok2 u Hu) |].
  split; [intros Hdry; apply no_put_app; auto |].
  intros i body Hin. apply in_app_iff in Hin as [Hin | Hin].
  - exists story. split; [by left |].
    destruct (Hput1 i body Hin) as (? & ? & ? & ? & added & ? & ? & Hfrom).
    repeat (split; [done |]). exists added. repeat (split; [done |]).
    eapply Forall_impl; [exact Hfrom |]. intros e He.
    rewrite <- (app_nil_l (evs1 ++ evs2)).
    by apply (entry_from_mono slugify _ story story [] evs1 evs2).
  - destruct (Hput2 i body Hin)
      as (story' & ? & ? & ? & ? & ? & added & ? & ? & Hfrom).
    exists story'. split; [by right |].
    repeat (split; [done |]). exists added. repeat (split; [done |]).
    eapply Forall_impl; [exact Hfrom |]. intros e He.
    rewrite <- (app_nil_r evs2).
    by apply (entry_from_mono slugify _ story' story' evs1 evs2 []).
Qed.
End Summaries.

(** ** The write step *)

(** C3, as the code has it: for a story fetched without the key
    [translated_slugs_attributes], once its loop over the locales is done,
    the PUT request is sent if and only if at least one entry was pushed for
    the story and [--dry-run] is not set.  The entries pushed are those of
    the locales that were not skipped; when there is none the story is
    passed over, with the line "No translations needed." in verbose mode and
    with no line at all otherwise. *)
Theorem write_iff_entries_and_live slugify W args cfg locales story st story' st1 :
  translated_slugs_attributes story = None →
  translate_locales slugify W args cfg story locales st = (Ok story', st1) →
  let res := write_story W args cfg story' st1 in
  ∃ added evs,
    pushed story story' added ∧
    map ts_lang added = translated_locales args story locales ∧
    trace res.2 = trace st1 ++ evs ∧
    (existsb is_put evs = true ↔
       added ≠ [] ∧ truthy_opt (args !! "dry-run") = false) ∧
    (added = [] →
       res.1 = Ok tt ∧
       evs = if verbose cfg then [EvLog (Text "No translations needed.")] else []).
Proof.
  intros Hnone Hloop.
  destruct (translate_locales_summary slugify W args cfg locales story st)
    as (evs1 & _ & _ & _ & Hok).
  rewrite Hloop in Hok. destruct (Hok story' eq_refl) as (_ & added & Hpush & Hlang & _).
  destruct (write_story_summary W args cfg story' st1)
    as (evs & Htr & _ & Hput & _ & Hskip & _).
  exists added, evs. split; [done |]. split; [done |]. split; [done |].
  destruct Hpush as [_ Hattr]. rewrite Hnone in Hattr.
  destruct added as [|e added].
  - split; [| intros _; by apply Hskip].
    rewrite Hput. split; [by intros [? _] | by intros [? _]].
  - split; [| done]. rewrite Hput, Hattr. split; intros [_ ?]; done.
Qed.

Lemma write_iff_entries_and_live_witness :
  existsb is_put
    (trace (process_story slugify_model (example_world example_items) example_args
              example_config ["de"] story_home initial_state).2) = true.
Proof.
  destruct (write_iff_entries_and_live slugify_model (example_world example_items)
              example_args example_config ["de"] story_home initial_state
              (set_translated_slugs_attributes story_home
                 [ {| ts_lang := "de"; ts_slug := "de-home"; ts_name := "de Home" |} ])
              (translate_locales slugify_model (example_world example_items)
                 example_args example_config story_home ["de"] initial_state).2)
    as (added & evs & _ & Hlang & Htr & Hput & _).
  - reflexivity.
  - vm_compute. reflexivity.
  - assert (existsb is_put evs = true) as Hex.
    { apply Hput. split; [| vm_compute; reflexivity].
      intros ->. vm_compute in Hlang. discriminate Hlang. }
    unfold process_story. rewrite bind_unfold.
    change (when (verbose example_config) _ initial_state) with (Ok tt, initial_state).
    cbv iota. rewrite bind_unfold.
    destruct (translate_locales slugify_model _ example_args example_config
                story_home ["de"] initial_state) as [[s1|h1] st1] eqn:E;
      [| vm_compute in E; discriminate E].
    assert (s1 = set_translated_slugs_attributes story_home
                   [ {| ts_lang := "de"; ts_slug := "de-home"; ts_name := "de Home" |} ])
      as -> by (vm_compute in E; by injection E as <- _).
    simpl in Htr. rewrite Htr, existsb_app, Hex. apply orb_true_r.
Defined.

(** C3 as it is written fails: in a dry run an entry is pushed for the
    story and yet no PUT request is sent. *)
Lemma entry_added_without_put_in_dry_run :
  ∃ story' st1,
    translate_locales slugify_model (example_world example_items)
      (<["dry-run" := JBool true]> example_args) example_config story_home ["de"]
      initial_state = (Ok story', st1) ∧
    translated_slugs_attributes story' =
      Some [ {| ts_lang := "de"; ts_slug := "de-home"; ts_name := "de Home" |} ] ∧
    write_story (example_world example_items)
      (<["dry-run" := JBool true]> example_args) example_config story' st1 = (Ok tt, st1) ∧
    existsb is_put (trace st1) = false.
Proof.
  eexists _, _. split; [vm_compute; reflexivity |].
  split; [reflexivity |]. split; vm_compute; reflexivity.
Qed.

(** ** The run always stops *)

Lemma report_halts st :
  report st =
  (Halt (Exit 0),
   {| st_detectedSourceLang := st_detectedSourceLang st;
      st_totalBilledCharacters := st_totalBilledCharacters st;
      trace := trace st ++ [EvLog (Text ""); EvLog Finished;
                            EvLog (TotalBilled (st_totalBilledCharacters st))] |}).
Proof.
  unfold report. repeat (rewrite bind_unfold; simpl).
  by rewrite <- !app_assoc.
Qed.

Lemma run_halts slugify W args env :
  ∃ h fin, run slugify W args env = (Halt h, fin).
Proof.
  unfold run, main. destruct (has_key args "help"); [by eexists _, _ |].
  rewrite bind_unfold.
  destruct (resolve_config args env initial_state) as [[cfg|h] st1]; [| by eexists _, _].
  unfold run_with_config. rewrite bind_unfold.
  destruct (prepare W args cfg st1) as [[prepared|h] st2]; [| by eexists _, _].
  rewrite bind_unfold.
  destruct (process_stories slugify W args cfg prepared.1 prepared.2 st2)
    as [[u|h] st3]; [| by eexists _, _].
  rewrite report_halts. by eexists _, _.
Qed.

(** ** The shape of a run *)

(** The stories that [prepare] hands over are records the content API
    returned. *)
Lemma prepare_fetched W args cfg st locales stories st1 :
  prepare W args cfg st = (Ok (locales, stories), st1) →
  Forall (λ s, ∃ h j, getStory W h j = Some s) stories.
Proof.
  intros Hprep. unfold prepare in Hprep.
  apply bind_Ok in Hprep as (l & s1 & _ & Hprep).
  apply bind_Ok in Hprep as (u1 & s2 & _ & Hprep).
  apply bind_Ok in Hprep as (u2 & s3 & _ & Hprep).
  apply bind_Ok in Hprep as (u3 & s4 & _ & Hprep).
  apply bind_Ok in Hprep as (items & s5 & _ & Hprep).
  apply bind_Ok in Hprep as (fetched & s6 & Hfetch & Hprep).
  apply bind_Ok in Hprep as (u4 & s7 & _ & Hprep).
  apply bind_Ok in Hprep as (u5 & s8 & _ & Hprep).
  unfold mret, M_ret in Hprep. injection Hprep as <- <- <-.
  apply fetch_stories_Ok in Hfetch as (_ & _ & _ & fetched' & -> & Hall).
  simpl. clear -Hall.
  induction Hall as [|item s items' ss (h & Hs) _ IH]; constructor; eauto.
Qed.

Lemma quiet_emit e st :
  is_translate e = false → is_put e = false →
  calls (trace st) = [] ∧ no_put (trace st) →
  calls (trace (emit e st).2) = [] ∧ no_put (trace (emit e st).2).
Proof.
  intros Ht Hp [Hc Hn]. simpl. rewrite calls_app, Hc. split.
  - by destruct e.
  - apply no_put_app; [done | by repeat constructor].
Qed.

Lemma process_stories_never_exits_0 slugify W args cfg locales stories st st' :
  sourceLang cfg = js_or (args !! "source-lang") None →
  process_stories slugify W args cfg locales stories st ≠ (Halt (Exit 0), st').
Proof.
  intros Hsrc Hloop.
  pose proof (maintains_process_stories slugify W args (λ _, True)
                (λ h _, h ≠ Exit 0)) as Hm.
  refine (_ (Hm _ _ _ _ cfg Hsrc locales stories st Logic.I)); clear Hm.
  - rewrite Hloop. congruence.
  - done.
  - done.
  - intros c txt target _ s _.
    destruct (translate W c txt target s) as [[t|h] s'] eqn:E; [done |].
    intros ->. by apply translate_never_exits_0 in E.
  - intros _ i body s _. unfold put_story_request.
    destruct (emit (EvPut i body) s) as [u s'].
    by destruct (putStory W (trace s) i body).
Qed.

(** A run stops before the first story, with no call of the translator and
    no PUT request, or it is made of the preparation, the loop over the
    stories and, when the loop comes to its end, the report. *)
Lemma run_shape slugify W args env h fin :
  run slugify W args env = (Halt h, fin) →
  (calls (trace fin) = [] ∧ no_put (trace fin) ∧
   (h = Exit 0 → has_key args "help" = true)) ∨
  ∃ cfg locales stories st1 evs rest,
    resolve_config args env initial_state = (Ok cfg, initial_state) ∧
    prepare W args cfg initial_state = (Ok (locales, stories), st1) ∧
    calls (trace st1) = [] ∧ no_put (trace st1) ∧
    trace (process_stories slugify W args cfg locales stories st1).2 =
      trace st1 ++ evs ∧
    trace fin = trace st1 ++ evs ++ rest ∧
    calls rest = [] ∧ no_put rest ∧
    (h = Exit 0 →
     (process_stories slugify W args cfg locales stories st1).1 = Ok tt).
Proof.
  set (Q := λ st, calls (trace st) = [] ∧ no_put (trace st)).
  assert (Q initial_state) as HQ0 by (split; [done | by constructor]).
  unfold run, main. destruct (has_key args "help") eqn:Hhelp.
  { intros [= <- <-]. left. split; [done |]. split; [by repeat constructor | done]. }
  rewrite bind_unfold.
  pose proof (maintains_resolve_config args Q (λ h st, Q st ∧ h ≠ Exit 0)
                quiet_emit) as Hcfg.
  refine (_ (Hcfg _ _ env initial_state HQ0)); clear Hcfg; [| done | done].
  destruct (resolve_config args env initial_state) as [[cfg|h0] st0] eqn:Ecfg.
  2: { intros [[? ?] ?] [= <- <-]. left. split; [done |]. split; [done |].
       intros ->. done. }
  intros _. pose proof Ecfg as Ecfg'.
  apply resolve_config_Ok in Ecfg' as (-> & (_ & _ & _ & _ & Hsrc) & _).
  unfold run_with_config. rewrite bind_unfold.
  pose proof (maintains_prepare W args Q (λ h st, Q st ∧ h ≠ Exit 0) quiet_emit)
    as Hprep.
  refine (_ (Hprep _ cfg initial_state HQ0)); clear Hprep; [| done].
  destruct (prepare W args cfg initial_state) as [[[locales stories]|h1] st1] eqn:Eprep.
  2: { intros [[? ?] ?] [= <- <-]. left. split; [done |]. split; [done |].
       intros ->. done. }
  intros [Hc1 Hn1]. simpl. rewrite bind_unfold.
  destruct (process_stories_summary slugify W args cfg locales stories st1)
    as (evs & Htr & _).
  intros Hrun. right. exists cfg, locales, stories, st1, evs.
  destruct (process_stories slugify W args cfg locales stories st1)
    as [[[]|h2] st2] eqn:Eloop; simpl in Htr.
  - rewrite report_halts in Hrun. injection Hrun as <- <-. simpl.
    eexists. rewrite Htr, <- app_assoc.
    repeat (split; [done |]). split; [by repeat constructor | done].
  - injection Hrun as <- <-. exists []. rewrite app_nil_r.
    repeat (split; [done |]). split; [by constructor |].
    intros ->. by apply process_stories_never_exits_0 in Eloop.
Qed.

(** ** The billed characters *)

Lemma billing_emit e st :
  is_translate e = false → billing_inv st → billing_inv (emit e st).2.
Proof.
  unfold billing_inv. simpl. intros He ->. rewrite sum_billed_app.
  destruct e; try discriminate He; simpl; lia.
Qed.

Lemma billing_translate W cfg txt target st :
  billing_inv st → billing_inv (translate W cfg txt target st).2.
Proof.
  unfold billing_inv. intros HI. rewrite translate_unfold.
  destruct (translateText W (trace st) txt (sourceLang cfg) target) as [r|]; simpl.
  - destruct (sourceLang cfg); simpl;
      [rewrite sum_billed_app, HI; simpl; lia |].
    destruct (st_detectedSourceLang st) as [previous|]; simpl;
      [| rewrite sum_billed_app, HI; simpl; lia].
    destruct (String.eqb previous ""); simpl;
      [rewrite sum_billed_app, HI; simpl; lia |].
    destruct (negb _); simpl; rewrite ?sum_billed_app, HI; simpl; lia.
  - rewrite sum_billed_app, HI. simpl. lia.
Qed.

(** C4: when the process stops, however it stops, the counter of billed
    characters is the sum of what the translator billed for every call made
    in the run, the call that triggers the exit of line 142 included; a run
    that ends with code 0 (other than for [--help]) has printed that sum as
    its last line.  The calls made in the run are, in order, a slug and a
    name for each prepared story and each locale that line 213 does not skip
    (all of them when the run ends with code 0, the first of them when it is
    cut short), so that the translator is never called for a skipped
    combination. *)
Theorem billed_total_is_sum slugify W args env :
  ∃ h fin,
    run slugify W args env = (Halt h, fin) ∧
    st_totalBilledCharacters fin = sum_billed (trace fin) ∧
    (h = Exit 0 → has_key args "help" = false →
     last (trace fin) = Some (EvLog (TotalBilled (sum_billed (trace fin))))) ∧
    (calls (trace fin) = [] ∨
     ∃ cfg locales stories st1,
       resolve_config args env initial_state = (Ok cfg, initial_state) ∧
       prepare W args cfg initial_state = (Ok (locales, stories), st1) ∧
       calls (trace fin) `prefix_of` flat_map (story_calls args locales) stories ∧
       (h = Exit 0 →
        calls (trace fin) = flat_map (story_calls args locales) stories)).
Proof.
  destruct (run_halts slugify W args env) as (h & fin & Hrun).
  exists h, fin. split; [done |].
  assert (billing_inv fin ∧ reported args h fin) as [Hb Hr].
  { pose proof (maintains_main slugify W args billing_inv
                  (λ h st, billing_inv st ∧ reported args h st)) as Hmain.
    unfold run in Hrun.
    refine (_ (Hmain _ _ _ _ _ _ _ env initial_state _)); clear Hmain.
    - by rewrite Hrun.
    - intros e s He _. by apply billing_emit.
    - intros s Hs. split; [done | intros [=]].
    - intros e s Hs. split; [done | intros [=]].
    - intros c txt target _ s Hs.
      pose proof (billing_translate W c txt target s Hs) as Hb.
      destruct (translate W c txt target s) as [[t|h'] s'] eqn:E; [done |].
      split; [done |]. intros ->. by apply translate_never_exits_0 in E.
    - intros _ i body s Hs. unfold put_story_request.
      pose proof (billing_emit (EvPut i body) s eq_refl Hs) as Hb.
      destruct (emit (EvPut i body) s) as [u s'].
      destruct (putStory W (trace s) i body); [done |].
      split; [done | intros [=]].
    - intros s Hs. split; [by apply billing_emit |].
      intros _ _. simpl. rewrite last_snoc, sum_billed_app. simpl.
      unfold billing_inv in Hs. rewrite Hs. do 3 f_equal. lia.
    - intros s Hhelp Hs. split; [by apply billing_emit |].
      intros _ Hno. congruence.
    - reflexivity. }
  split; [done |]. split; [done |].
  destruct (run_shape slugify W args env h fin Hrun)
    as [(Hnone & _) | (cfg & locales & stories & st1 & evs & rest & Hcfg & Hprep
                       & Hc1 & _ & Htr & Hfin & Hrest & _ & Hok)]; [by left |].
  right. exists cfg, locales, stories, st1. split; [done |]. split; [done |].
  destruct (process_stories_summary slugify W args cfg locales stories st1)
    as (evs' & Htr' & Hpre & Hall & _).
  rewrite Htr in Htr'. apply app_inv_head in Htr' as <-.
  rewrite Hfin, !calls_app, Hc1, Hrest, app_nil_r. simpl.
  split; [done |]. intros Hh. apply (Hall tt). by apply Hok.
Qed.

Lemma billed_total_is_sum_witness :
  ∃ h fin,
    run slugify_model (example_world example_items) example_args example_env =
      (Halt h, fin) ∧
    st_totalBilledCharacters fin = sum_billed (trace fin) ∧
    (h = Exit 0 → has_key example_args "help" = false →
     last (trace fin) = Some (EvLog (TotalBilled (sum_billed (trace fin))))) ∧
    (calls (trace fin) = [] ∨
     ∃ cfg locales stories st1,
       resolve_config example_args example_env initial_state =
         (Ok cfg, initial_state) ∧
       prepare (example_world example_items) example_args cfg initial_state =
         (Ok (locales, stories), st1) ∧
       calls (trace fin) `prefix_of`
         flat_map (story_calls example_args locales) stories ∧
       (h = Exit 0 →
        calls (trace fin) = flat_map (story_calls example_args locales) stories)).
Proof.
  exact (billed_total_is_sum slugify_model (example_world example_items)
           example_args example_env).
Defined.

(** ** The detected source language *)

Lemma all_empty_replicate (ds : list string) :
  (∀ d, In d ds → d = "") → ds = replicate (List.length ds) "".
Proof.
  induction ds as [|d ds IH]; intros H; simpl; [done |].
  rewrite <- IH by (intros d' Hd'; apply H; by right).
  by rewrite (H d) by (by left).
Qed.

Lemma replicate_snoc (n : nat) (d : string) :
  replicate n d ++ [d] = replicate (S n) d.
Proof. induction n as [|n IH]; simpl; [done |]. by rewrite IH. Qed.

Lemma reported_so_far_In (d d' : string) (ds : list string) :
  reported_so_far d ds → In d' ds → d' = "" ∨ d' = d.
Proof.
  assert (∀ n (x : string), In d' (replicate n x) → d' = x) as Hrep.
  { intros n x. induction n as [|n IH]; simpl; [done |]. intros [<- | H]; auto. }
  intros (k & m & ->) [Hin | Hin]%in_app_iff; apply Hrep in Hin; auto.
Qed.

Lemma detection_emit e st :
  is_translate e = false → detection_inv st → detection_inv (emit e st).2.
Proof.
  unfold detection_inv. simpl. rewrite detections_app. intros He H.
  assert (detections [e] = []) as -> by (destruct e; try discriminate He; done).
  by rewrite app_nil_r.
Qed.

(** The first language that is remembered. *)
Lemma detection_first (ds : list string) (d : string) :
  (∀ d', In d' ds → d' = "") →
  (default "" (Some d) = "" ∧ ∀ d', In d' (ds ++ [d]) → d' = "") ∨
  (∃ d0, Some d = Some d0 ∧ d0 ≠ "" ∧ reported_so_far d0 (ds ++ [d])).
Proof.
  intros Hall. destruct (decide (d = "")) as [-> | Hd].
  - left. split; [done |].
    intros d' [Hd' | [<- | []]]%in_app_iff; [by apply Hall | done].
  - right. exists d. split; [done |]. split; [done |].
    exists (List.length ds), 0%nat. by rewrite <- all_empty_replicate.
Qed.

Lemma detection_translate W cfg txt target st :
  sourceLang cfg = None →
  detection_inv st →
  match translate W cfg txt target st with
  | (Ok _, st') => detection_inv st'
  | (Halt h, st') =>
      detection_inv st' ∨ (h = Exit 1 ∧ aborted_on_detection (trace st'))
  end.
Proof.
  intros Hsrc Hinv. rewrite translate_unfold, Hsrc.
  destruct (translateText W (trace st) txt None target) as [r|] eqn:Hr; simpl.
  2: { left. unfold detection_inv in *. simpl. by rewrite detections_app, app_nil_r. }
  destruct (st_detectedSourceLang st) as [previous|] eqn:Hp.
  2: { unfold detection_inv in *. simpl. rewrite Hp, detections_app in *. simpl.
       destruct Hinv as [[_ Hall] | (d & [=] & _)].
       by apply detection_first. }
  destruct (String.eqb previous "") eqn:Hempty.
  { apply String.eqb_eq in Hempty as ->.
    unfold detection_inv in *. simpl. rewrite Hp, detections_app in *. simpl.
    destruct Hinv as [[_ Hall] | (d & [= <-] & Hd & _)]; [| done].
    by apply detection_first. }
  apply String.eqb_neq in Hempty.
  assert (reported_so_far previous (detections (trace st))) as Hso.
  { unfold detection_inv in Hinv. rewrite Hp in Hinv. simpl in Hinv.
    destruct Hinv as [[? _] | (d & [= <-] & _ & ?)]; done. }
  destruct (String.eqb (detectedSourceLang r) previous) eqn:Hsame; simpl.
  - apply String.eqb_eq in Hsame. right. exists previous.
    simpl. rewrite ?Hp, detections_app. simpl. split; [done |]. split; [done |].
    destruct Hso as (k & m & ->). exists k, (S m).
    by rewrite Hsame, <- app_assoc, replicate_snoc.
  - apply String.eqb_neq in Hsame. right. split; [done |].
    exists (trace st), txt, target, r, previous. by rewrite <- app_assoc.
Qed.

(** C1, as the code has it: with no source locale configured, a run in which
    two calls of the translator reported different languages, neither of
    them the empty string, has exited with code 1 right at the first call
    whose language differs from the remembered one.  The remembered language
    [d] is the first non-empty one that was reported: the calls before the
    last one reported the empty string [k] times, then [d] and nothing else.
    The trace of the run ends with that last call and the error line:
    nothing, in particular no PUT request, is issued after it. *)
Theorem detection_mismatch_aborts slugify W args env d1 d2 :
  truthy_opt (args !! "source-lang") = false →
  In d1 (detections (trace (run slugify W args env).2)) →
  In d2 (detections (trace (run slugify W args env).2)) →
  d1 ≠ d2 → d1 ≠ "" → d2 ≠ "" →
  ∃ fin pre txt target r d k m,
    run slugify W args env = (Halt (Exit 1), fin) ∧
    trace fin = pre ++ [EvTranslate txt None target (Some r);
                        EvLog (ErrDetectedSourceLang (detectedSourceLang r) d)] ∧
    detections pre = replicate k "" ++ replicate (S m) d ∧
    d ≠ "" ∧ detectedSourceLang r ≠ d.
Proof.
  intros Hauto Hd1 Hd2 Hdiff Hne1 Hne2.
  destruct (run_halts slugify W args env) as (h & fin & Hrun).
  rewrite Hrun in Hd1, Hd2. simpl in Hd1, Hd2.
  assert (detection_inv fin ∨ (h = Exit 1 ∧ aborted_on_detection (trace fin)))
    as [[[_ Hall] | (d & _ & _ & Hso)] | [-> Habort]].
  { pose proof (maintains_main slugify W args detection_inv
                  (λ h st, detection_inv st ∨
                           (h = Exit 1 ∧ aborted_on_detection (trace st)))) as Hmain.
    unfold run in Hrun.
    refine (_ (Hmain _ _ _ _ _ _ _ env initial_state _)); clear Hmain.
    - by rewrite Hrun.
    - intros e s He _. by apply detection_emit.
    - intros s Hs. by left.
    - intros e s Hs. by left.
    - intros c txt target Hc s Hs. apply detection_translate; [| done].
      rewrite Hc. unfold js_or. by rewrite Hauto.
    - intros _ i body s Hs. unfold put_story_request.
      pose proof (detection_emit (EvPut i body) s eq_refl Hs) as Hb.
      destruct (emit (EvPut i body) s) as [u s'].
      destruct (putStory W (trace s) i body); [done | by left].
    - intros s Hs. left. by apply detection_emit.
    - intros s _ Hs. left. by apply detection_emit.
    - left. split; [done | by intros d []]. }
  - by apply Hall in Hd1.
  - destruct (reported_so_far_In d d1 _ Hso Hd1) as [? | ->]; [done |].
    destruct (reported_so_far_In d d2 _ Hso Hd2) as [? | ->]; done.
  - destruct Habort as (pre & txt & target & r & d & Htr & (k & m & Hpre) & Hd & Hr).
    by exists fin, pre, txt, target, r, d, k, m.
Qed.

Lemma detection_mismatch_aborts_witness :
  ∃ fin pre txt target r d k m,
    run slugify_model (example_world mixed_items) example_args ∅ =
      (Halt (Exit 1), fin) ∧
    trace fin = pre ++ [EvTranslate txt None target (Some r);
                        EvLog (ErrDetectedSourceLang (detectedSourceLang r) d)] ∧
    detections pre = replicate k "" ++ replicate (S m) d ∧
    d ≠ "" ∧ detectedSourceLang r ≠ d.
Proof.
  apply (detection_mismatch_aborts slugify_model (example_world mixed_items)
           example_args ∅ "EN" "FR").
  - vm_compute. reflexivity.
  - vm_compute. auto.
  - vm_compute. auto.
  - discriminate.
  - discriminate.
  - discriminate.
Defined.

(** C1 as it is written fails: the translator reports English for the first
    story and French for the second; the run exits with code 1, but the PUT
    request of the first story was sent before. *)
Lemma put_issued_before_detection_abort :
  ∃ fin,
    run slugify_model (example_world mixed_items) example_args ∅ = (Halt (Exit 1), fin) ∧
    sourceLang example_config = None ∧
    detections (trace fin) = ["EN"; "EN"; "FR"] ∧
    In (EvPut 1 home_put_body) (trace fin).
Proof.
  eexists. split; [vm_compute; reflexivity |].
  split; [reflexivity |]. split; [vm_compute; reflexivity |].
  vm_compute. auto 20.
Qed.

(** ** Dry runs *)

Lemma no_put_emit e st :
  is_put e = false → no_put (trace st) → no_put (trace (emit e st).2).
Proof. intros He Hs. simpl. apply no_put_app; [done | by repeat constructor]. Qed.

Lemma dry_run_no_put slugify W args env :
  truthy_opt (args !! "dry-run") = true →
  no_put (trace (run slugify W args env).2).
Proof.
  intros Hdry.
  pose proof (maintains_main slugify W args (λ st, no_put (trace st))
                (λ _ st, no_put (trace st))) as Hmain.
  refine (_ (Hmain _ _ _ _ _ _ _ env initial_state _)); clear Hmain.
  - unfold run. by destruct (main slugify W args env initial_state) as [[u|h] fin].
  - intros e s _ He. by apply no_put_emit.
  - done.
  - done.
  - intros c txt target _ s Hs.
    destruct (translate_calls W c txt target s) as (evs & Htr & _ & Hp).
    assert (no_put (trace (translate W c txt target s).2))
      by (rewrite Htr; by apply no_put_app).
    by destruct (translate W c txt target s) as [[t|h] s'].
  - congruence.
  - intros s Hs. by apply no_put_emit.
  - intros s _ Hs. by apply no_put_emit.
  - by constructor.
Qed.

Section Progress.
Context (slugify : string → string) (W : World) (args : gmap string jsval)
        (cfg : RunConfig) (d : string).
Hypothesis Hdry : truthy_opt (args !! "dry-run") = true.
Hypothesis Hspace : ∀ h, is_Some (getSpaceLanguages W h).
Hypothesis Hlist : ∀ h, is_Some (getAllStories W h).
Hypothesis Hstory : ∀ h i, ∃ s, getStory W h i = Some s ∧ is_Some (localized_paths s).
Hypothesis Htranslator : ∀ h txt source target,
  ∃ r, translateText W h txt source target = Some r ∧ detectedSourceLang r = d.

Lemma succeeds_ret {A : Type} (a : A) : succeeds (detected_among d) (mret a).
Proof. intros st HJ. by exists a, st. Qed.

Lemma succeeds_bind {A B : Type} (m : M A) (f : A → M B) :
  succeeds (detected_among d) m →
  (∀ a, succeeds (detected_among d) (f a)) →
  succeeds (detected_among d) (m ≫= f).
Proof.
  intros Hm Hf st HJ. destruct (Hm st HJ) as (a & st1 & Hst & HJ1).
  rewrite bind_unfold, Hst. by apply Hf.
Qed.

Lemma succeeds_log (l : line) : succeeds (detected_among d) (console_log l).
Proof. intros st HJ. by eexists tt, _. Qed.

Lemma succeeds_when (b : bool) (m : M unit) :
  succeeds (detected_among d) m → succeeds (detected_among d) (when b m).
Proof. destruct b; [done | intros _; apply succeeds_ret]. Qed.

Lemma succeeds_get_space_languages :
  succeeds (detected_among d) (get_space_languages W).
Proof.
  intros st HJ. unfold get_space_languages. simpl.
  destruct (Hspace (trace st)) as [l ->]. by eexists _, _.
Qed.

Lemma succeeds_get_all_stories : succeeds (detected_among d) (get_all_stories W).
Proof.
  intros st HJ. unfold get_all_stories. simpl.
  destruct (Hlist (trace st)) as [l ->]. by eexists _, _.
Qed.

Lemma succeeds_get_story (i : Z) : succeeds (detected_among d) (get_story W i).
Proof.
  intros st HJ. unfold get_story. simpl.
  destruct (Hstory (trace st) i) as (s & -> & _). by eexists _, _.
Qed.

Lemma succeeds_fetch_stories (storyList : list StoryListItem) :
  ∀ stories, succeeds (detected_among d) (fetch_stories W cfg storyList stories).
Proof.
  induction storyList as [|item rest IH]; intros stories; simpl.
  - apply succeeds_ret.
  - destruct (story_filter cfg item); [| apply IH].
    apply succeeds_bind; [apply succeeds_get_story | intros s; apply IH].
Qed.

Lemma succeeds_prepare : succeeds (detected_among d) (prepare W args cfg).
Proof.
  unfold prepare, resolve_locales, general_information.
  destruct (List.length (locales cfg) =? 0)%nat;
    repeat first
      [ apply succeeds_ret | apply succeeds_log | apply succeeds_when
      | apply succeeds_get_space_languages | apply succeeds_get_all_stories
      | apply succeeds_fetch_stories
      | apply succeeds_bind; [| intros ?] ].
Qed.

Lemma succeeds_translate (txt target : string) :
  succeeds (detected_among d) (translate W cfg txt target).
Proof.
  intros st HJ. rewrite translate_unfold.
  destruct (Htranslator (trace st) txt (sourceLang cfg) target) as (r & -> & Hd).
  simpl. destruct (sourceLang cfg); [by eexists _, _ |].
  destruct HJ as [-> | ->];
    [eexists _, _; split; [done |]; right; simpl; congruence |].
  destruct (String.eqb d "");
    [eexists _, _; split; [done |]; right; simpl; congruence |].
  rewrite Hd, String.eqb_refl. simpl. eexists _, _. split; [done |]. by right.
Qed.

Lemma succeeds_process_locale (story : Story) (locale : string) :
  is_Some (localized_paths story) →
  succeeds (detected_among d) (process_locale slugify W args cfg story locale).
Proof.
  intros [paths Hpaths]. unfold process_locale. rewrite Hpaths.
  destruct (skip_locale args paths locale).
  - apply succeeds_bind; [apply succeeds_when, succeeds_log | intros _].
  apply succeeds_ret.
  - apply succeeds_bind; [apply succeeds_translate | intros t1].
    apply succeeds_bind; [apply succeeds_translate | intros t2].
    apply succeeds_ret.
Qed.

Lemma succeeds_translate_locales (locales : list string) :
  ∀ story, is_Some (localized_paths story) →
           succeeds (detected_among d) (translate_locales slugify W args cfg story locales).
Proof.
  induction locales as [|locale rest IH]; intros story Hpaths; simpl.
  - apply succeeds_ret.
  - intros st HJ. rewrite bind_unfold.
    destruct (succeeds_process_locale story locale Hpaths st HJ)
      as (story1 & st1 & Hst & HJ1).
    destruct (process_locale_summary slugify W args cfg story locale st)
      as (evs & _ & _ & _ & Hok).
    rewrite Hst in Hok |- *.
    destruct (Hok story1 eq_refl) as (_ & added & [Hsame _] & _).
    apply IH; [| done]. destruct Hsame as (_ & _ & _ & _ & -> & _). done.
Qed.

Lemma succeeds_write_story (story : Story) :
  succeeds (detected_among d) (write_story W args cfg story).
Proof.
  unfold write_story. rewrite Hdry.
  destruct (translated_slugs_attributes story).
  - apply succeeds_bind; [apply succeeds_when, succeeds_log | intros _].
    apply succeeds_when, succeeds_log.
  - apply succeeds_when, succeeds_log.
Qed.

Lemma succeeds_process_story (locales : list string) (story : Story) :
  is_Some (localized_paths story) →
  succeeds (detected_among d) (process_story slugify W args cfg locales story).
Proof.
  intros Hpaths. unfold process_story.
  apply succeeds_bind; [apply succeeds_when | intros _].
  { repeat (apply succeeds_bind; [apply succeeds_log | intros _]).
    apply succeeds_log. }
  apply succeeds_bind; [by apply succeeds_translate_locales | intros story1].
  apply succeeds_write_story.
Qed.

Lemma succeeds_process_stories (locales : list string) (stories : list Story) :
  Forall (λ s, is_Some (localized_paths s)) stories →
  succeeds (detected_among d) (process_stories slugify W args cfg locales stories).
Proof.
  induction 1 as [|story rest Hpaths _ IH]; simpl.
  - apply succeeds_ret.
  - apply succeeds_bind; [by apply succeeds_process_story | intros _; apply IH].
Qed.

(** The stories that [prepare] hands over all have [localized_paths]. *)
Lemma prepare_Ok st locales stories st1 :
  prepare W args cfg st = (Ok (locales, stories), st1) →
  Forall (λ s, is_Some (localized_paths s)) stories.
Proof.
  intros Hprep. apply prepare_fetched in Hprep.
  eapply Forall_impl; [exact Hprep |]. intros s (h & j & Hs).
  destruct (Hstory h j) as (s' & Hs' & Hpaths). congruence.
Qed.
End Progress.

(** C6, as the code has it: in a run with [--dry-run] no PUT request is ever
    sent, whatever the stories and the locales and however the run ends.
    The translations are still made and the run still ends with code 0
    whenever nothing fatal happens, that is when [--help] is not given, the
    configuration resolves, every request is answered, every fetched story
    has [localized_paths] and the translator always detects the same source
    language: the calls of the translator are then those of every prepared
    story and every locale that is not skipped. *)
Theorem dry_run_never_writes slugify W args env :
  truthy_opt (args !! "dry-run") = true →
  (∀ i body, ¬ In (EvPut i body) (trace (run slugify W args env).2)) ∧
  (has_key args "help" = false →
   ∀ cfg, resolve_config args env initial_state = (Ok cfg, initial_state) →
   cooperative W →
   ∃ locales stories st1 fin,
     prepare W args cfg initial_state = (Ok (locales, stories), st1) ∧
     run slugify W args env = (Halt (Exit 0), fin) ∧
     calls (trace fin) = flat_map (story_calls args locales) stories).
Proof.
  intros Hdry. split.
  { intros i body. apply no_put_In. by apply dry_run_no_put. }
  intros Hhelp cfg Hcfg (Hspace & Hlist & Hstory & d & Htranslator).
  assert (detected_among d initial_state) as HJ0 by by left.
  destruct (succeeds_prepare W args cfg d Hspace Hlist Hstory initial_state HJ0)
    as ([locales stories] & st1 & Hprep & HJ1).
  pose proof (prepare_Ok W args cfg Hstory initial_state locales stories st1 Hprep)
    as Hpaths.
  destruct (succeeds_process_stories slugify W args cfg d Hdry Htranslator
              locales stories Hpaths st1 HJ1) as ([] & st2 & Hloop & _).
  exists locales, stories, st1.
  assert (run slugify W args env =
          (Halt (Exit 0),
           {| st_detectedSourceLang := st_detectedSourceLang st2;
              st_totalBilledCharacters := st_totalBilledCharacters st2;
              trace := trace st2 ++
                [EvLog (Text ""); EvLog Finished;
                 EvLog (TotalBilled (st_totalBilledCharacters st2))] |}))
    as Hrun.
  { unfold run, main. rewrite Hhelp, bind_unfold, Hcfg.
    unfold run_with_config. rewrite bind_unfold, Hprep. simpl.
    by rewrite bind_unfold, Hloop, report_halts. }
  eexists. split; [done |]. split; [exact Hrun |].
  destruct (run_shape slugify W args env _ _ Hrun)
    as [(_ & _ & Hno) | (cfg' & locales' & stories' & st1' & evs & rest & Hcfg'
                         & Hprep' & Hc1 & _ & Htr & Hfin & Hrest & _ & Hok)].
  { specialize (Hno eq_refl). congruence. }
  rewrite Hcfg in Hcfg'. injection Hcfg' as <-.
  rewrite Hprep in Hprep'. injection Hprep' as <- <- <-.
  destruct (process_stories_summary slugify W args cfg locales stories st1)
    as (evs' & Htr' & _ & Hall & _).
  rewrite Htr in Htr'. apply app_inv_head in Htr' as <-.
  rewrite Hfin, !calls_app, Hc1, Hrest, app_nil_r. simpl.
  apply (Hall tt). by apply Hok.
Qed.

Lemma dry_run_never_writes_witness :
  (∀ i body,
     ¬ In (EvPut i body)
          (trace (run slugify_model steady_world dry_run_args example_env).2)) ∧
  ∃ locales stories st1 fin,
    prepare steady_world dry_run_args example_config initial_state =
      (Ok (locales, stories), st1) ∧
    run slugify_model steady_world dry_run_args example_env = (Halt (Exit 0), fin) ∧
    calls (trace fin) = flat_map (story_calls dry_run_args locales) stories.
Proof.
  destruct (dry_run_never_writes slugify_model steady_world dry_run_args example_env)
    as [Hnone Hgood].
  - vm_compute. reflexivity.
  - split; [exact Hnone |]. apply Hgood.
    + vm_compute. reflexivity.
    + vm_compute. reflexivity.
    + split; [by eexists |]. split; [by eexists |].
      split; [intros h i; eexists; split; [reflexivity |]; by destruct (i =? 2) |].
      exists "EN". intros h txt source target. by eexists.
Defined.

(** C6 as it is written fails in its last part: a dry run in which a story
    has no [localized_paths] exits with code 1 at that story. *)
Lemma dry_run_exits_with_1 :
  truthy_opt (dry_run_args !! "dry-run") = true ∧
  ∃ fin,
    run slugify_model (example_world [page_item story_home; page_item story_plain])
        dry_run_args ∅ = (Halt (Exit 1), fin) ∧
    last (trace fin) = Some (EvLog (ErrLocalizedPaths "plain")).
Proof.
  split; [vm_compute; reflexivity |].
  eexists. split; vm_compute; reflexivity.
Qed.

(** ** The payload of the write *)

Lemma translate_events_app (tr1 tr2 : list event) :
  translate_events (tr1 ++ tr2) = translate_events tr1 ++ translate_events tr2.
Proof. apply List.filter_app. Qed.

Lemma translate_events_quiet (tr : list event) :
  calls tr = [] → translate_events tr = [].
Proof.
  unfold calls, translate_events.
  induction tr as [|e tr IH]; simpl; [done |].
  destruct e; simpl; try done.
Qed.

(** Where an event sits in a list that is made of two parts. *)
Lemma app_eq_event (l1 l2 before after : list event) (e : event) :
  l1 ++ l2 = before ++ e :: after →
  (∃ k, l1 = before ++ e :: k ∧ after = k ++ l2) ∨
  (∃ k, before = l1 ++ k ∧ l2 = k ++ e :: after).
Proof.
  intros H. apply List.app_eq_app in H as (k & [[H1 H2] | [H1 H2]]).
  - destruct k as [|e' k].
    + right. exists []. rewrite app_nil_r in H1. simpl in H2. subst.
      by rewrite app_nil_r.
    + injection H2 as <- ->. left. by exists k.
  - right. by exists k.
Qed.

Lemma put_after_quiet (l1 l2 before after : list event) i body :
  no_put l1 →
  l1 ++ l2 = before ++ EvPut i body :: after →
  ∃ k, before = l1 ++ k ∧ l2 = k ++ EvPut i body :: after.
Proof.
  intros Hquiet [(k & -> & _) | H]%app_eq_event; [| done].
  exfalso. apply (no_put_In _ i body Hquiet), in_app_iff. right. by left.
Qed.

Section Entries.
Context (slugify : string → string) (W : World) (args : gmap string jsval)
        (cfg : RunConfig).

(** One turn of the loop over the locales that comes to its end. *)
Lemma process_locale_entries story locale st story' st' :
  process_locale slugify W args cfg story locale st = (Ok story', st') →
  ∃ evs pairs,
    trace st' = trace st ++ evs ∧
    map fst pairs = translated_locales args story [locale] ∧
    translate_events evs = flat_map (answered_calls (sourceLang cfg) story) pairs ∧
    pushed story story' (map (entry_of slugify) pairs).
Proof.
  unfold process_locale, translated_locales.
  destruct (localized_paths story) as [paths|]; [| discriminate].
  simpl. destruct (skip_locale args paths locale); simpl.
  { intros H. exists (if verbose cfg then [EvLog (SkippedLocale locale)] else []), [].
    destruct (verbose cfg); injection H as <- <-; simpl; rewrite ?app_nil_r;
      (split; [done |]); (split; [done |]); (split; [done |]); apply pushed_nil. }
  intros H.
  apply bind_Ok in H as (t1 & st1 & H1 & H).
  apply bind_Ok in H as (t2 & st2 & H2 & H).
  unfold mret, M_ret in H. injection H as <- <-.
  apply translate_Ok in H1 as (r1 & _ & -> & Htr1).
  apply translate_Ok in H2 as (r2 & _ & -> & Htr2).
  exists [EvTranslate (slug story) (sourceLang cfg) locale (Some r1);
          EvTranslate (name story) (sourceLang cfg) locale (Some r2)],
         [(locale, (r1, r2))].
  rewrite Htr2, Htr1, <- app_assoc. split; [done |]. split; [done |].
  split; [done |]. apply push_translated_slug_pushed.
Qed.

(** The loop over the locales, when it comes to its end. *)
Lemma translate_locales_entries locales :
  ∀ story st story' st',
    translate_locales slugify W args cfg story locales st = (Ok story', st') →
    ∃ evs pairs,
      trace st' = trace st ++ evs ∧
      map fst pairs = translated_locales args story locales ∧
      translate_events evs = flat_map (answered_calls (sourceLang cfg) story) pairs ∧
      pushed story story' (map (entry_of slugify) pairs).
Proof.
  induction locales as [|locale rest IH]; intros story st story' st' H; simpl in H.
  { unfold mret, M_ret in H. injection H as <- <-. exists [], [].
    rewrite app_nil_r. split; [done |].
    split; [unfold translated_locales; by destruct (localized_paths story) |].
    split; [done | apply pushed_nil]. }
  apply bind_Ok in H as (story1 & st1 & H1 & H).
  apply process_locale_entries in H1 as (evs1 & pairs1 & Htr1 & Hl1 & Hev1 & Hpush1).
  apply IH in H as (evs2 & pairs2 & Htr2 & Hl2 & Hev2 & Hpush2).
  pose proof Hpush1 as [Hsame _].
  rewrite (translated_locales_same args rest story story1) in Hl2 by done.
  assert (answered_calls (sourceLang cfg) story1 = answered_calls (sourceLang cfg) story)
    as Hcalls.
  { destruct Hsame as (_ & Hs & Hn & _). unfold answered_calls. by rewrite Hs, Hn. }
  rewrite Hcalls in Hev2.
  exists (evs1 ++ evs2), (pairs1 ++ pairs2).
  rewrite Htr2, Htr1, <- app_assoc, !map_app, flat_map_app, translate_events_app,
    (translated_locales_cons args), Hl1, Hl2, Hev1, Hev2.
  split; [done |]. split; [done |]. split; [done |].
  by apply (pushed_trans story story1).
Qed.

(** A PUT request of [write_story] is the one of its story, after lines
    only. *)
Lemma write_story_put story st before i body after :
  trace (write_story W args cfg story st).2 = trace st ++ before ++ EvPut i body :: after →
  i = story_id story ∧ put_story body = story ∧ translate_events before = [].
Proof.
  intros Htr.
  destruct (write_story_summary W args cfg story st) as (evs & Htr' & Hcalls & _ & Hbody & _).
  rewrite Htr in Htr'. apply app_inv_head in Htr' as <-.
  destruct (Hbody i body) as (-> & -> & _); [apply in_app_iff; right; by left |].
  split; [done |]. split; [done |]. apply translate_events_quiet.
  rewrite calls_app in Hcalls. by apply app_eq_nil in Hcalls as [? _].
Qed.

(** A PUT request of one turn of the loop over the stories: the calls of the
    translator before it are those of the story, all answered, and the story
    it carries is the story of the turn with the entries of these answers
    pushed. *)
Lemma process_story_put locales story st before i body after :
  trace (process_story slugify W args cfg locales story st).2 =
    trace st ++ before ++ EvPut i body :: after →
  ∃ pairs,
    i = story_id story ∧
    map fst pairs = translated_locales args story locales ∧
    translate_events before = flat_map (answered_calls (sourceLang cfg) story) pairs ∧
    pushed story (put_story body) (map (entry_of slugify) pairs).
Proof.
  unfold process_story. rewrite bind_unfold.
  set (evs0 := if verbose cfg
               then [EvLog (Text ""); EvLog (DefaultFullSlug (full_slug story));
                     EvLog (DefaultName (name story))]
               else []).
  assert (∃ st0, when (verbose cfg)
                   (console_log (Text "");;
                    console_log (DefaultFullSlug (full_slug story));;
                    console_log (DefaultName (name story))) st = (Ok tt, st0) ∧
                 trace st0 = trace st ++ evs0) as (st0 & -> & Htr0).
  { unfold evs0. destruct (verbose cfg); simpl.
    - eexists. split; [reflexivity |]. simpl. by rewrite <- !app_assoc.
    - eexists. split; [reflexivity |]. by rewrite app_nil_r. }
  assert (no_put evs0) as Hp0
    by (unfold evs0; destruct (verbose cfg); by repeat constructor).
  assert (translate_events evs0 = []) as Hc0 by (unfold evs0; by destruct (verbose cfg)).
  rewrite bind_unfold.
  destruct (translate_locales_summary slugify W args cfg locales story st0)
    as (evs1 & Htr1 & Hp1 & _).
  destruct (translate_locales slugify W args cfg story locales st0)
    as [[story1|h1] st1] eqn:Hloop; simpl in *.
  2: { rewrite Htr1, Htr0, <- app_assoc. intros Htr. exfalso.
       apply app_inv_head in Htr.
       apply (no_put_In (evs0 ++ evs1) i body); [by apply no_put_app |].
       rewrite Htr. apply in_app_iff. right. by left. }
  apply translate_locales_entries in Hloop
    as (evs1' & pairs & Htr1' & Hlang & Hev & Hpush).
  rewrite Htr1 in Htr1'. apply app_inv_head in Htr1' as <-.
  destruct (write_story_summary W args cfg story1 st1) as (evs2 & Htr2 & _).
  intros Htr. pose proof Htr as Htr'.
  rewrite Htr2, Htr1, Htr0, <- !app_assoc in Htr'.
  apply app_inv_head in Htr'. rewrite app_assoc in Htr'.
  apply put_after_quiet in Htr' as (k & -> & ->); [| by apply no_put_app].
  destruct (write_story_put story1 st1 k i body after) as (-> & Hbody & Hk); [done |].
  exists pairs. pose proof Hpush as [(Hid & _) _].
  split; [done |]. split; [done |].
  rewrite !translate_events_app, Hc0, Hk, app_nil_r. split; [done |].
  by rewrite Hbody.
Qed.

(** A PUT request of the loop over the stories. *)
Lemma process_stories_put locales stories :
  ∀ st before i body after,
    trace (process_stories slugify W args cfg locales stories st).2 =
      trace st ++ before ++ EvPut i body :: after →
    ∃ story pairs earlier,
      In story stories ∧ i = story_id story ∧
      map fst pairs = translated_locales args story locales ∧
      translate_events before =
        earlier ++ flat_map (answered_calls (sourceLang cfg) story) pairs ∧
      pushed story (put_story body) (map (entry_of slugify) pairs).
Proof.
  induction stories as [|story rest IH]; intros st before i body after; simpl.
  { intros H. rewrite <- (app_nil_r (trace st)) in H at 1.
    apply app_inv_head in H. by destruct before. }
  rewrite bind_unfold.
  destruct (process_story_summary slugify W args cfg locales story st)
    as (evs1 & Htr1 & _).
  pose proof (process_story_put locales story st) as Hone.
  destruct (process_story slugify W args cfg locales story st) as [[u|h] st1];
    simpl in *.
  2: { intros Htr. apply Hone in Htr as (pairs & ? & ? & ? & ?).
       exists story, pairs, []. auto. }
  destruct (process_stories_summary slugify W args cfg locales rest st1)
    as (evs2 & Htr2 & _).
  intros Htr. pose proof Htr as Htr'.
  rewrite Htr2, Htr1, <- app_assoc in Htr'. apply app_inv_head in Htr'.
  apply app_eq_event in Htr' as [(k & -> & ->) | (k & -> & ->)].
  - destruct (Hone before i body k) as (pairs & ? & ? & ? & ?); [done |].
    exists story, pairs, []. auto.
  - destruct (IH st1 k i body after) as (story' & pairs & earlier & ? & ? & ? & Hev & ?);
      [done |].
    exists story', pairs, (translate_events evs1 ++ earlier).
    split; [by right |]. split; [done |]. split; [done |].
    split; [| done]. by rewrite translate_events_app, Hev, app_assoc.
Qed.
End Entries.

(** C10: every PUT request of a run carries, under the id of a story the
    run fetched, the record of that story in which every field but
    [translated_slugs_attributes] is as it was fetched.  That field holds
    the list that was fetched (the empty list when the key was missing)
    followed by the entries [{lang, slug, name}] pushed in the run, and by
    nothing else: one entry for every locale of the run that is not skipped
    for the story, in the order of the locales, made of the locale, the
    slugified answer to the translation of the slug and the answer to the
    translation of the name.  The answers are those of the calls of the
    translator made last before the request. *)
Theorem put_payload_frame slugify W args env before i body after :
  trace (run slugify W args env).2 = before ++ EvPut i body :: after →
  ∃ cfg locales stories st1 story pairs earlier,
    resolve_config args env initial_state = (Ok cfg, initial_state) ∧
    prepare W args cfg initial_state = (Ok (locales, stories), st1) ∧
    In story stories ∧
    i = story_id story ∧
    story_id (put_story body) = story_id story ∧
    slug (put_story body) = slug story ∧
    name (put_story body) = name story ∧
    full_slug (put_story body) = full_slug story ∧
    localized_paths (put_story body) = localized_paths story ∧
    other_fields (put_story body) = other_fields story ∧
    map fst pairs = translated_locales args story locales ∧
    translate_events before =
      earlier ++ flat_map (answered_calls (sourceLang cfg) story) pairs ∧
    translated_slugs_attributes (put_story body) =
      Some (default [] (translated_slugs_attributes story) ++
            map (entry_of slugify) pairs).
Proof.
  intros Hput.
  destruct (run_halts slugify W args env) as (hlt & fin & Hrun).
  rewrite Hrun in Hput. simpl in Hput.
  destruct (run_shape slugify W args env hlt fin Hrun)
    as [(_ & Hnone & _) | (cfg & locales & stories & st1 & evs & rest & Hcfg & Hprep
                           & _ & Hn1 & Htr & Hfin & _ & Hnrest & _)].
  { exfalso. apply (no_put_In _ i body Hnone). rewrite Hput.
    apply in_app_iff. right. by left. }
  rewrite Hput in Hfin. symmetry in Hfin.
  apply put_after_quiet in Hfin as (k & -> & Hfin); [| done].
  apply app_eq_event in Hfin as [(k' & -> & ->) | (k' & -> & Hrest)].
  2: { exfalso. apply (no_put_In _ i body Hnrest). rewrite Hrest.
       apply in_app_iff. right. by left. }
  destruct (process_stories_put slugify W args cfg locales stories st1 k i body k' Htr)
    as (story & pairs & earlier & Hin & Hid & Hlang & Hev & [Hsame Hattr]).
  destruct (process_stories_summary slugify W args cfg locales stories st1)
    as (evs' & Htr' & _ & _ & _ & Hsome).
  rewrite Htr in Htr'. apply app_inv_head in Htr' as <-.
  destruct (Hsome i body) as (_ & _ & _ & _ & Hkey & _);
    [apply in_app_iff; right; by left |].
  destruct Hsame as (? & ? & ? & ? & ? & ?).
  exists cfg, locales, stories, st1, story, pairs,
         (translate_events (trace st1) ++ earlier).
  repeat (split; [done |]).
  split; [by rewrite translate_events_app, Hev, app_assoc |].
  destruct (map (entry_of slugify) pairs) as [|e added]; [| done].
  rewrite Hattr in *. rewrite app_nil_r.
  by destruct (translated_slugs_attributes story).
Qed.

Lemma put_payload_frame_witness :
  let tr := trace (run slugify_model (example_world example_items) example_args
                     example_env).2 in
  ∃ cfg locales stories st1 story pairs earlier,
    resolve_config example_args example_env initial_state = (Ok cfg, initial_state) ∧
    prepare (example_world example_items) example_args cfg initial_state =
      (Ok (locales, stories), st1) ∧
    In story stories ∧
    1 = story_id story ∧
    story_id (put_story home_put_body) = story_id story ∧
    slug (put_story home_put_body) = slug story ∧
    name (put_story home_put_body) = name story ∧
    full_slug (put_story home_put_body) = full_slug story ∧
    localized_paths (put_story home_put_body) = localized_paths story ∧
    other_fields (put_story home_put_body) = other_fields story ∧
    map fst pairs = translated_locales example_args story locales ∧
    translate_events (take 15 tr) =
      earlier ++ flat_map (answered_calls (sourceLang cfg) story) pairs ∧
    translated_slugs_attributes (put_story home_put_body) =
      Some (default [] (translated_slugs_attributes story) ++
            map (entry_of slugify_model) pairs).
Proof.
  intros tr.
  apply (put_payload_frame slugify_model (example_world example_items) example_args
           example_env (take 15 tr) 1 home_put_body (drop 16 tr)).
  vm_compute. reflexivity.
Defined.

(** * Further properties of the script *)

(** ** The comma lists of the command line *)

Lemma split_on_not_nil (sep : ascii) (s : string) : split_on sep s ≠ [].
Proof.
  destruct s as [|c s]; simpl; [done |].
  destruct (Ascii.eqb c sep); [done |]. by destruct (split_on sep s).
Qed.

Lemma join_with_cons (sep : ascii) (piece : string) (l : list string) :
  l ≠ [] → join_with sep (piece :: l) = piece +:+ String sep (join_with sep l).
Proof. by destruct l. Qed.

Lemma join_with_String (sep c : ascii) (piece : string) (l : list string) :
  join_with sep (String c piece :: l) = String c (join_with sep (piece :: l)).
Proof. by destruct l. Qed.

(** X1: splitting at a character and joining with it gives the string back;
    no piece holds the character, there is always at least one piece, and a
    string without the character is its only piece. *)
Theorem split_on_join (sep : ascii) (s : string) :
  join_with sep (split_on sep s) = s ∧
  Forall (λ piece, contains_char sep piece = false) (split_on sep s) ∧
  split_on sep s ≠ [] ∧
  (contains_char sep s = false → split_on sep s = [s]).
Proof.
  split; [| split; [| split; [apply split_on_not_nil |]]].
  - induction s as [|c s IH]; simpl; [done |].
    destruct (Ascii.eqb c sep) eqn:Hc.
    + apply Ascii.eqb_eq in Hc as ->.
      rewrite join_with_cons by apply split_on_not_nil. simpl. by rewrite IH.
    + pose proof (split_on_not_nil sep s) as Hne.
      destruct (split_on sep s) as [|piece pieces]; [done |].
      by rewrite join_with_String, IH.
  - induction s as [|c s IH]; simpl; [by repeat constructor |].
    destruct (Ascii.eqb c sep) eqn:Hc; [by constructor |].
    pose proof (split_on_not_nil sep s) as Hne.
    destruct (split_on sep s) as [|piece pieces]; [done |].
    inversion IH as [|? ? Hpiece Hpieces]; subst.
    constructor; [| done]. simpl. by rewrite Hc.
  - induction s as [|c s IH]; simpl; [done |].
    destruct (Ascii.eqb c sep); [done |]. simpl. intros Hs. by rewrite IH.
Qed.

Lemma split_arg_cases (v : option jsval) (dflt : list string) (st : state) :
  if unsplittable v
  then split_arg v dflt st = (Halt (Throw (TypeError "split is not a function")), st)
  else ∃ l, split_arg v dflt st = (Ok l, st).
Proof.
  unfold unsplittable, split_arg. destruct (truthy_opt v) eqn:Hv; simpl.
  - destruct v as [[| |s|]|]; try done. by eexists.
  - by eexists.
Qed.

(** X2: a flag of a comma list ([--content-types], [--locales],
    [--skip-stories], [--only-stories]) given without a value, with a number
    or more than once has no [split]: with the credentials and the region in
    order, the script throws a TypeError before it prints or requests
    anything. *)
Theorem unsplittable_flag_throws slugify W args env flag :
  has_key args "help" = false →
  missing args env "token" "STORYBLOK_OAUTH_TOKEN" = false →
  missing args env "space" "STORYBLOK_SPACE_ID" = false →
  bad_region args env = false →
  missing args env "deepl-api-key" "DEEPL_API_KEY" = false →
  In flag list_flags →
  unsplittable (args !! flag) = true →
  run slugify W args env =
    (Halt (Throw (TypeError "split is not a function")), initial_state).
Proof.
  intros Hhelp Htok Hsp Hrg Hkey Hflag Hbad.
  unfold run, main. rewrite Hhelp, bind_unfold.
  assert (resolve_config args env initial_state =
          (Halt (Throw (TypeError "split is not a function")), initial_state)) as ->;
    [| done].
  unfold resolve_config. rewrite bind_unfold, required_present by done.
  rewrite bind_unfold, required_present by done.
  destruct (resolve_region_good args env initial_state Hrg) as [r Hr].
  rewrite bind_unfold, Hr, bind_unfold, required_present by done.
  pose proof (split_arg_cases (args !! "content-types") ["page"] initial_state) as H1.
  pose proof (split_arg_cases (args !! "locales") [] initial_state) as H2.
  pose proof (split_arg_cases (args !! "skip-stories") [] initial_state) as H3.
  pose proof (split_arg_cases (args !! "only-stories") [] initial_state) as H4.
  rewrite bind_unfold.
  destruct (unsplittable (args !! "content-types")) eqn:E1; [by rewrite H1 |].
  destruct H1 as [l1 ->]. rewrite bind_unfold.
  destruct (unsplittable (args !! "locales")) eqn:E2; [by rewrite H2 |].
  destruct H2 as [l2 ->]. rewrite bind_unfold.
  destruct (unsplittable (args !! "skip-stories")) eqn:E3; [by rewrite H3 |].
  destruct H3 as [l3 ->]. rewrite bind_unfold.
  destruct (unsplittable (args !! "only-stories")) eqn:E4; [by rewrite H4 |].
  exfalso. simpl in Hflag.
  destruct Hflag as [<- | [<- | [<- | [<- | []]]]]; congruence.
Qed.

Lemma unsplittable_flag_throws_witness :
  run slugify_model (example_world example_items)
      (<["locales" := JBool true]> example_args) example_env =
    (Halt (Throw (TypeError "split is not a function")), initial_state).
Proof.
  apply (unsplittable_flag_throws slugify_model (example_world example_items)
           (<["locales" := JBool true]> example_args) example_env "locales");
    try (vm_compute; reflexivity).
  simpl. auto.
Defined.

(** ** The region *)

(** X3: a configuration that resolves has one of the five regions, and
    without [--help], with token and space id in order, a region that is
    stated and is not one of the five ends the run at once: one line, exit
    code 1, no request. *)
Theorem region_is_checked slugify W args env :
  (∀ st cfg st', resolve_config args env st = (Ok cfg, st') → In (region cfg) regions) ∧
  (has_key args "help" = false →
   missing args env "token" "STORYBLOK_OAUTH_TOKEN" = false →
   missing args env "space" "STORYBLOK_SPACE_ID" = false →
   bad_region args env = true →
   run slugify W args env =
     (Halt (Exit 1),
      {| st_detectedSourceLang := None; st_totalBilledCharacters := 0;
         trace := [EvLog (Text msg_region)] |})).
Proof.
  split.
  - intros st cfg st' Hcfg.
    apply resolve_config_Ok in Hcfg as (-> & _ & Hrg & _).
    apply resolve_region_Ok in Hrg as (_ & Hgood & Hrg).
    unfold bad_region in Hgood.
    destruct (has_key args "region" || _).
    + rewrite Hrg in Hgood. simpl in Hgood. apply negb_false_iff in Hgood.
      by apply includes_In.
    + rewrite Hrg. simpl. auto.
  - intros Hhelp Htok Hsp Hrg. unfold run, main. rewrite Hhelp, bind_unfold.
    unfold resolve_config. rewrite bind_unfold, required_present by done.
    rewrite bind_unfold, required_present by done.
    by rewrite bind_unfold, resolve_region_bad.
Qed.

Lemma region_is_checked_witness :
  run slugify_model (example_world example_items)
      (<["region" := JStr "de"]> example_args) example_env =
    (Halt (Exit 1),
     {| st_detectedSourceLang := None; st_totalBilledCharacters := 0;
        trace := [EvLog (Text msg_region)] |}).
Proof.
  apply (region_is_checked slugify_model (example_world example_items)
           (<["region" := JStr "de"]> example_args) example_env);
    vm_compute; reflexivity.
Defined.

(** ** The locales *)



(** ** Fetching the stories *)

(** X5: the loop that fetches the stories stops the process only when the
    fetch of a selected story fails, with the error of that request: the
    selected stories before it were fetched, in order, and no story after it
    is asked for. *)
Theorem fetch_failure_is_fatal W cfg storyList :
  ∀ stories0 st h st',
    fetch_stories W cfg storyList stories0 st = (Halt h, st') →
    h = Throw (ApiError "get story") ∧
    ∃ fetched item rest,
      List.filter (story_filter cfg) storyList = fetched ++ item :: rest ∧
      trace st' = trace st ++
        map (λ it, EvGetStory (item_id it)) (fetched ++ [item]) ∧
      getStory W (trace st ++ map (λ it, EvGetStory (item_id it)) fetched)
        (item_id item) = None.
Proof.
  induction storyList as [|item items IH]; intros stories0 st h st'; simpl;
    [discriminate |].
  destruct (story_filter cfg item) eqn:Hsel; [| apply IH].
  rewrite bind_unfold. unfold get_story at 1. simpl.
  destruct (getStory W (trace st) (item_id item)) as [s|] eqn:Hget.
  - intros H. apply IH in H as (-> & fetched & item' & rest & Hfil & Htr & Hnone).
    split; [done |]. exists (item :: fetched), item', rest.
    simpl in *. rewrite Hfil, Htr, <- app_assoc. split; [done |]. split; [done |].
    by rewrite <- app_assoc in Hnone.
  - intros [= <- <-]. split; [done |]. exists [], item, (List.filter (story_filter cfg) items).
    simpl. by rewrite app_nil_r.
Qed.

Lemma fetch_failure_is_fatal_witness :
  ∃ fetched item rest,
    List.filter (story_filter example_config) example_items =
      fetched ++ item :: rest ∧
    trace (fetch_stories failing_world example_config example_items []
             initial_state).2 =
      trace initial_state ++
        map (λ it, EvGetStory (item_id it)) (fetched ++ [item]) ∧
    getStory failing_world
      (trace initial_state ++ map (λ it, EvGetStory (item_id it)) fetched)
      (item_id item) = None.
Proof.
  apply (fetch_failure_is_fatal failing_world example_config example_items []
           initial_state (Throw (ApiError "get story"))
           (fetch_stories failing_world example_config example_items []
              initial_state).2).
  vm_compute. reflexivity.
Defined.

(** ** The loops over the locales and the stories *)

Lemma skip_locale_overwrite args paths locale :
  truthy_opt (args !! "overwrite") = true → skip_locale args paths locale = false.
Proof.
  intros H. unfold skip_locale. rewrite H.
  destruct (existingTranslation paths locale); [apply andb_false_r | done].
Qed.

Lemma translated_locales_overwrite args story locales :
  truthy_opt (args !! "overwrite") = true →
  translated_locales args story locales = locales.
Proof.
  intros H. unfold translated_locales.
  destruct (localized_paths story) as [paths|]; [| done].
  induction locales as [|locale rest IH]; simpl; [done |].
  by rewrite skip_locale_overwrite, IH.
Qed.

(** X6: with [--overwrite], a loop over the locales that comes to its end
    has translated slug and name for every locale of the list, existing
    published translations included, and has pushed one entry per locale, in
    the order of the list. *)
Theorem overwrite_translates_every_locale slugify W args cfg story locales st story' st' :
  truthy_opt (args !! "overwrite") = true →
  translate_locales slugify W args cfg story locales st = (Ok story', st') →
  ∃ evs added,
    trace st' = trace st ++ evs ∧
    calls evs = flat_map (λ locale, [(slug story, locale); (name story, locale)]) locales ∧
    map ts_lang added = locales ∧
    same_but_translated_slugs story story' ∧
    translated_slugs_attributes story' =
      match added with
      | [] => translated_slugs_attributes story
      | _ :: _ => Some (default [] (translated_slugs_attributes story) ++ added)
      end ∧
    Forall (entry_from slugify (sourceLang cfg) story evs) added.
Proof.
  intros Hover Hloop.
  destruct (translate_locales_summary slugify W args cfg locales story st)
    as (evs & Htr & _ & _ & Hok).
  rewrite Hloop in Htr, Hok. simpl in Htr.
  destruct (Hok story' eq_refl) as (Hcalls & added & [Hsame Hattr] & Hlang & Hfrom).
  unfold story_calls in Hcalls. rewrite translated_locales_overwrite in Hcalls, Hlang by done.
  by exists evs, added.
Qed.

Lemma overwrite_translates_every_locale_witness :
  ∃ evs added,
    trace (translate_locales slugify_model (example_world example_items)
             overwrite_args example_config story_about ["de"; "fr"]
             initial_state).2 = trace initial_state ++ evs ∧
    calls evs = [("about-us", "de"); ("About Us", "de");
                 ("about-us", "fr"); ("About Us", "fr")] ∧
    map ts_lang added = ["de"; "fr"].
Proof.
  destruct (translate_locales slugify_model (example_world example_items)
              overwrite_args example_config story_about ["de"; "fr"]
              initial_state) as [[story'|h] st'] eqn:E;
    [| vm_compute in E; discriminate E].
  destruct (overwrite_translates_every_locale slugify_model
              (example_world example_items) overwrite_args example_config
              story_about ["de"; "fr"] initial_state story' st')
    as (evs & added & Htr & Hcalls & Hlang & _).
  - vm_compute. reflexivity.
  - exact E.
  - by exists evs, added.
Defined.

Lemma process_story_no_locales slugify W args cfg story st :
  translated_slugs_attributes story = None →
  process_story slugify W args cfg [] story st =
    (Ok tt,
     {| st_detectedSourceLang := st_detectedSourceLang st;
        st_totalBilledCharacters := st_totalBilledCharacters st;
        trace := trace st ++
          if verbose cfg
          then [EvLog (Text ""); EvLog (DefaultFullSlug (full_slug story));
                EvLog (DefaultName (name story));
                EvLog (Text "No translations needed.")]
          else [] |}).
Proof.
  intros Hnone. unfold process_story, write_story. simpl.
  destruct (verbose cfg);
    cbv beta iota zeta delta
      [mbind M_bind mret M_ret when console_log emit fst snd trace
       st_detectedSourceLang st_totalBilledCharacters];
    rewrite Hnone; simpl.
  - by rewrite <- !app_assoc.
  - rewrite app_nil_r. by destruct st.
Qed.

(** X7: with an empty list of locales nothing is translated and nothing is
    checked: stories fetched without [translated_slugs_attributes], with or
    without [localized_paths], are all passed over; the loop comes to its end
    having sent no request at all, and having printed only the verbose lines
    of each story. *)
Theorem no_locales_no_work slugify W args cfg stories :
  Forall (λ s, translated_slugs_attributes s = None) stories →
  ∀ st,
    let res := process_stories slugify W args cfg [] stories st in
    res.1 = Ok tt ∧
    st_detectedSourceLang res.2 = st_detectedSourceLang st ∧
    st_totalBilledCharacters res.2 = st_totalBilledCharacters st ∧
    trace res.2 = trace st ++
      flat_map (λ story,
                  if verbose cfg
                  then [EvLog (Text ""); EvLog (DefaultFullSlug (full_slug story));
                        EvLog (DefaultName (name story));
                        EvLog (Text "No translations needed.")]
                  else []) stories.
Proof.
  induction 1 as [|story rest Hnone _ IH]; intros st; simpl.
  - by rewrite app_nil_r.
  - rewrite bind_unfold, process_story_no_locales by done.
    destruct (IH {| st_detectedSourceLang := st_detectedSourceLang st;
                    st_totalBilledCharacters := st_totalBilledCharacters st;
                    trace := trace st ++
                      (if verbose cfg
                       then [EvLog (Text "");
                             EvLog (DefaultFullSlug (full_slug story));
                             EvLog (DefaultName (name story));
                             EvLog (Text "No translations needed.")]
                       else []) |})
      as (Hok & Hd & Ht & Htr).
    simpl in *. rewrite Hok, Hd, Ht, Htr, <- app_assoc. done.
Qed.

Lemma no_locales_no_work_witness :
  process_stories slugify_model (example_world example_items) example_args
    example_config [] [story_home; story_plain] initial_state =
  (Ok tt, initial_state).
Proof.
  pose proof (no_locales_no_work slugify_model (example_world example_items)
                example_args example_config [story_home; story_plain]) as H.
  destruct (H ltac:(by repeat constructor) initial_state) as (Hok & Hd & Ht & Htr).
  destruct (process_stories _ _ _ _ [] [story_home; story_plain] initial_state)
    as [r [d t tr]].
  simpl in *. by subst.
Defined.

(** ** The write requests *)

Lemma no_put_put_ids tr : no_put tr → put_ids tr = [].
Proof.
  unfold no_put, put_ids. induction 1 as [|e tr He _ IH]; simpl; [done |].
  destruct e; try discriminate He; done.
Qed.

Lemma put_ids_app tr1 tr2 : put_ids (tr1 ++ tr2) = put_ids tr1 ++ put_ids tr2.
Proof. apply omap_app. Qed.

(** What [write_story] adds to the trace: lines only, or lines around one
    PUT request for the story. *)
Lemma write_story_shape W args cfg story st :
  ∃ evs,
    trace (write_story W args cfg story st).2 = trace st ++ evs ∧
    calls evs = [] ∧
    (no_put evs ∨
     ∃ before after body,
       evs = before ++ EvPut (story_id story) body :: after ∧
       no_put before ∧ no_put after).
Proof.
  unfold write_story.
  destruct (translated_slugs_attributes story) as [attributes|].
  2: { exists (if verbose cfg then [EvLog (Text "No translations needed.")] else []).
       destruct (verbose cfg); simpl; rewrite ?app_nil_r;
         (split; [done |]); (split; [done |]); left; by repeat constructor. }
  destruct (truthy_opt (args !! "dry-run")).
  { exists (if verbose cfg
            then [EvLog (UpdatedSlugs attributes);
                  EvLog (Text "Dry-run mode. No changes performed.")]
            else []).
    destruct (verbose cfg); simpl; rewrite ?app_nil_r, <- ?app_assoc;
      (split; [done |]); (split; [done |]); left; by repeat constructor. }
  unfold put_story_request.
  destruct (verbose cfg);
    cbv beta iota zeta delta
      [mbind M_bind mret M_ret when console_log emit fst snd trace
       st_detectedSourceLang st_totalBilledCharacters];
    match goal with |- context [putStory W ?tr ?i ?body] =>
      destruct (putStory W tr i body) end;
    eexists; rewrite <- ?app_assoc;
    (split; [reflexivity |]); (split; [reflexivity |]); right.
  - exists [EvLog (UpdatedSlugs attributes)], [EvLog (Text "Update successful.")].
    eexists. split; [reflexivity |]. split; by repeat constructor.
  - exists [EvLog (UpdatedSlugs attributes)], []. eexists.
    split; [reflexivity |]. split; by repeat constructor.
  - exists [], []. eexists. split; [reflexivity |]. split; by constructor.
  - exists [], []. eexists. split; [reflexivity |]. split; by constructor.
Qed.

Lemma In_put_between before after i j body body' :
  no_put before → no_put after →
  In (EvPut i body) (before ++ EvPut j body' :: after) →
  i = j ∧ body = body'.
Proof.
  intros Hb Ha [Hin | [[= <- <-] | Hin]]%in_app_iff; [| done |];
    by apply no_put_In in Hin.
Qed.

(** What [process_story] adds to the trace: nothing that is a PUT request
    when the loop over the locales is cut short; otherwise all the calls of
    the story, then what [write_story] adds. *)
Lemma process_story_shape slugify W args cfg locales story st :
  ∃ evs,
    trace (process_story slugify W args cfg locales story st).2 = trace st ++ evs ∧
    (no_put evs ∨
     ∃ before after body,
       evs = before ++ EvPut (story_id story) body :: after ∧
       no_put before ∧ no_put after ∧
       calls before = story_calls args locales story ∧ calls after = []).
Proof.
  unfold process_story. rewrite bind_unfold.
  set (evs0 := if verbose cfg
               then [EvLog (Text ""); EvLog (DefaultFullSlug (full_slug story));
                     EvLog (DefaultName (name story))]
               else []).
  assert (∃ st0, when (verbose cfg)
                   (console_log (Text "");;
                    console_log (DefaultFullSlug (full_slug story));;
                    console_log (DefaultName (name story))) st = (Ok tt, st0) ∧
                 trace st0 = trace st ++ evs0) as (st0 & -> & Htr0).
  { unfold evs0. destruct (verbose cfg); simpl.
    - eexists. split; [reflexivity |]. simpl. by rewrite <- !app_assoc.
    - eexists. split; [reflexivity |]. by rewrite app_nil_r. }
  assert (no_put evs0) as Hp0
    by (unfold evs0; destruct (verbose cfg); by repeat constructor).
  assert (calls evs0 = []) as Hc0 by (unfold evs0; by destruct (verbose cfg)).
  rewrite bind_unfold.
  destruct (translate_locales_summary slugify W args cfg locales story st0)
    as (evs1 & Htr1 & Hp1 & _ & Hok1).
  destruct (translate_locales slugify W args cfg story locales st0)
    as [[story1|h1] st1]; simpl in *.
  2: { exists (evs0 ++ evs1). rewrite Htr1, Htr0, <- app_assoc.
       split; [done |]. left. by apply no_put_app. }
  destruct (Hok1 story1 eq_refl) as (Hc1 & added & [Hsame _] & _).
  destruct Hsame as (Hid & _).
  destruct (write_story_shape W args cfg story1 st1)
    as (evs2 & Htr2 & Hc2 & [Hp2 | (before & after & body & -> & Hb & Ha)]).
  - exists (evs0 ++ evs1 ++ evs2). rewrite Htr2, Htr1, Htr0, <- !app_assoc.
    split; [done |]. left. by repeat apply no_put_app.
  - exists (evs0 ++ evs1 ++ before ++ EvPut (story_id story1) body :: after).
    rewrite Htr2, Htr1, Htr0, <- !app_assoc. split; [done |]. right.
    exists (evs0 ++ evs1 ++ before), after, body. rewrite Hid, <- !app_assoc.
    split; [done |]. split; [by repeat apply no_put_app |]. split; [done |].
    rewrite calls_app in Hc2. apply app_eq_nil in Hc2 as [Hcb Hca].
    simpl in Hca. rewrite !calls_app, Hc0, Hc1, Hcb, app_nil_r. done.
Qed.

(** X8: a story is never written half translated: where [process_story]
    sends the PUT request of a story, slug and name were translated before
    for every locale of the story that is not skipped, and the story is not
    sent to the translator again after it. *)
Theorem story_written_after_its_translations
    slugify W args cfg locales story st evs i body :
  trace (process_story slugify W args cfg locales story st).2 = trace st ++ evs →
  In (EvPut i body) evs →
  ∃ before after,
    evs = before ++ EvPut i body :: after ∧
    no_put before ∧ no_put after ∧
    calls before = story_calls args locales story ∧
    calls after = [].
Proof.
  intros Htr Hin.
  destruct (process_story_shape slugify W args cfg locales story st)
    as (evs' & Htr' & Hshape).
  rewrite Htr in Htr'. apply app_inv_head in Htr' as <-.
  destruct Hshape as [Hnone | (before & after & body' & -> & Hb & Ha & Hcb & Hca)].
  { by apply no_put_In in Hin. }
  destruct (In_put_between _ _ _ _ _ _ Hb Ha Hin) as [-> ->].
  by exists before, after.
Qed.

Lemma story_written_after_its_translations_witness :
  ∃ before after,
    [ EvTranslate "home" None "de"
        (Some {| text := "de home"; billedCharacters := 4;
                 detectedSourceLang := "EN" |});
      EvTranslate "Home" None "de"
        (Some {| text := "de Home"; billedCharacters := 4;
                 detectedSourceLang := "EN" |});
      EvPut 1 home_put_body ] = before ++ EvPut 1 home_put_body :: after ∧
    no_put before ∧ no_put after ∧
    calls before = story_calls example_args ["de"] story_home ∧
    calls after = [].
Proof.
  apply (story_written_after_its_translations slugify_model
           (example_world example_items) example_args example_config ["de"]
           story_home initial_state).
  - vm_compute. reflexivity.
  - simpl. auto.
Defined.

Lemma process_stories_put_ids slugify W args cfg locales stories :
  ∀ st, ∃ evs,
    trace (process_stories slugify W args cfg locales stories st).2 = trace st ++ evs ∧
    put_ids evs `sublist_of` map story_id stories.
Proof.
  induction stories as [|story rest IH]; intros st; simpl.
  { exists []. by rewrite app_nil_r. }
  rewrite bind_unfold.
  destruct (process_story_shape slugify W args cfg locales story st)
    as (evs1 & Htr1 & Hshape).
  assert (put_ids evs1 `sublist_of` [story_id story]) as Hsub1.
  { destruct Hshape as [Hnone | (before & after & body & -> & Hb & Ha & _)].
    - rewrite no_put_put_ids by done. apply sublist_nil_l.
    - rewrite put_ids_app. simpl.
      by rewrite (no_put_put_ids before), (no_put_put_ids after). }
  destruct (process_story slugify W args cfg locales story st) as [[u|h] st1];
    simpl in *.
  - destruct (IH st1) as (evs2 & Htr2 & Hsub2).
    exists (evs1 ++ evs2). rewrite Htr2, Htr1, <- app_assoc, put_ids_app.
    split; [done |]. by apply (sublist_app _ [story_id story]).
  - exists evs1. split; [done |].
    rewrite <- (app_nil_r (put_ids evs1)).
    apply (sublist_app _ [story_id story] [] (map story_id rest));
      [done | apply sublist_nil_l].
Qed.

(** X9: a run writes every story at most once and in the order in which the
    stories were fetched: the ids of its PUT requests are a sublist of the
    ids of the prepared stories. *)
Theorem stories_written_once_in_order slugify W args env :
  let fin := (run slugify W args env).2 in
  put_ids (trace fin) = [] ∨
  ∃ cfg locales stories st1,
    resolve_config args env initial_state = (Ok cfg, initial_state) ∧
    prepare W args cfg initial_state = (Ok (locales, stories), st1) ∧
    put_ids (trace fin) `sublist_of` map story_id stories.
Proof.
  destruct (run_halts slugify W args env) as (h & fin & Hrun). rewrite Hrun. simpl.
  destruct (run_shape slugify W args env h fin Hrun)
    as [(_ & Hnone & _) | (cfg & locales & stories & st1 & evs & rest & Hcfg & Hprep
                           & _ & Hn1 & Htr & Hfin & _ & Hnrest & _)].
  { left. by apply no_put_put_ids. }
  right. exists cfg, locales, stories, st1. split; [done |]. split; [done |].
  destruct (process_stories_put_ids slugify W args cfg locales stories st1)
    as (evs' & Htr' & Hsub).
  rewrite Htr in Htr'. apply app_inv_head in Htr' as <-.
  rewrite Hfin, !put_ids_app, (no_put_put_ids (trace st1)), (no_put_put_ids rest) by done.
  by rewrite app_nil_r.
Qed.

(** X10: every PUT request of a run is sent without [--dry-run] and carries
    [publish: 1] exactly when [--publish] is given. *)
Theorem put_carries_publish_flag slugify W args env i body :
  In (EvPut i body) (trace (run slugify W args env).2) →
  truthy_opt (args !! "dry-run") = false ∧
  put_publish body = if truthy_opt (args !! "publish") then Some 1 else None.
Proof.
  intros Hin.
  destruct (run_halts slugify W args env) as (h & fin & Hrun).
  rewrite Hrun in Hin. simpl in Hin.
  destruct (run_shape slugify W args env h fin Hrun)
    as [(_ & Hnone & _) | (cfg & locales & stories & st1 & evs & rest & _ & _
                           & _ & Hn1 & Htr & Hfin & _ & Hnrest & _)].
  { by apply no_put_In in Hin. }
  rewrite Hfin, !in_app_iff in Hin.
  destruct Hin as [Hin | [Hin | Hin]];
    [by apply no_put_In in Hin | | by apply no_put_In in Hin].
  destruct (process_stories_summary slugify W args cfg locales stories st1)
    as (evs' & Htr' & _ & _ & _ & Hput).
  rewrite Htr in Htr'. apply app_inv_head in Htr' as <-.
  destruct (Hput i body Hin) as (story & _ & _ & Hdry & _ & Hpub & _). done.
Qed.

Lemma put_carries_publish_flag_witness :
  truthy_opt (example_args !! "dry-run") = false ∧
  put_publish home_put_body =
    if truthy_opt (example_args !! "publish") then Some 1 else None.
Proof.
  apply (put_carries_publish_flag slugify_model (example_world example_items)
           example_args example_env 1 home_put_body).
  vm_compute. auto 20.
Defined.

(** ** Invariants of a run, with the lines and the errors told apart *)

(** The same walk through the script as in [Invariant], for invariants that
    the error line of line 139 or an error the script cannot throw would
    break: outside of [translate] the script prints other lines only, and it
    throws only the TypeError of [split] and the errors of the two services. *)
Section Precise.
Context (slugify : string → string) (W : World) (args : gmap string jsval).
Variable I : state → Prop.
Variable F : halt → state → Prop.

Hypothesis I_event : ∀ e st,
  is_translate e = false → is_put e = false → is_detection_error e = false →
  I st → I (emit e st).2.
Hypothesis F_exit1 : ∀ st, I st → F (Exit 1) st.
Hypothesis F_split : ∀ st, I st → F (Throw (TypeError "split is not a function")) st.
Hypothesis F_api : ∀ what st, I st → F (Throw (ApiError what)) st.
Hypothesis I_translate : ∀ cfg txt target,
  sourceLang cfg = js_or (args !! "source-lang") None →
  maintains I F (translate W cfg txt target).
Hypothesis I_put : ∀ i body, maintains I F (put_story_request W i body).
Hypothesis F_report : ∀ st,
  I st → F (Exit 0) (emit (EvLog (TotalBilled (st_totalBilledCharacters st))) st).2.
Hypothesis F_help : ∀ st, I st → F (Exit 0) (emit (EvLog Usage) st).2.

Lemma keeps_ret {A : Type} (a : A) : maintains I F (mret a).
Proof. intros st HI. exact HI. Qed.

Lemma keeps_bind {A B : Type} (m : M A) (f : A → M B) :
  maintains I F m → (∀ a, maintains I F (f a)) → maintains I F (m ≫= f).
Proof.
  intros Hm Hf st HI. rewrite bind_unfold. specialize (Hm st HI).
  destruct (m st) as [[a|h] st1]; [by apply Hf | done].
Qed.

Lemma keeps_log (l : line) :
  is_detection_error (EvLog l) = false → maintains I F (console_log l).
Proof. intros Hl st HI. by apply (I_event (EvLog l)). Qed.

Lemma keeps_exit1 {A : Type} : maintains I F (@process_exit A 1).
Proof. intros st HI. by apply F_exit1. Qed.

Lemma keeps_when (b : bool) (m : M unit) :
  maintains I F m → maintains I F (when b m).
Proof. destruct b; [done | intros _; apply keeps_ret]. Qed.

Lemma keeps_get_space_languages : maintains I F (get_space_languages W).
Proof.
  intros st HI. unfold get_space_languages.
  pose proof (I_event EvGetSpace st eq_refl eq_refl eq_refl HI) as HI'.
  destruct (emit EvGetSpace st) as [u st'].
  destruct (getSpaceLanguages W (trace st)); [done | by apply F_api].
Qed.

Lemma keeps_get_all_stories : maintains I F (get_all_stories W).
Proof.
  intros st HI. unfold get_all_stories.
  pose proof (I_event EvGetAll st eq_refl eq_refl eq_refl HI) as HI'.
  destruct (emit EvGetAll st) as [u st'].
  destruct (getAllStories W (trace st)); [done | by apply F_api].
Qed.

Lemma keeps_get_story (i : Z) : maintains I F (get_story W i).
Proof.
  intros st HI. unfold get_story.
  pose proof (I_event (EvGetStory i) st eq_refl eq_refl eq_refl HI) as HI'.
  destruct (emit (EvGetStory i) st) as [u st'].
  destruct (getStory W (trace st) i); [done | by apply F_api].
Qed.

Ltac keep :=
  repeat first
    [ apply keeps_ret
    | apply keeps_log; reflexivity
    | apply keeps_exit1
    | apply keeps_get_space_languages
    | apply keeps_get_all_stories
    | apply keeps_get_story
    | apply keeps_when
    | apply keeps_bind; [| intros ?] ].

Lemma keeps_split_arg (v : option jsval) (dflt : list string) :
  maintains I F (split_arg v dflt).
Proof.
  unfold split_arg. destruct (truthy_opt v); [| keep].
  destruct v as [[]|]; first [by keep | intros st HI; by apply F_split].
Qed.

Lemma keeps_required (env : gmap string string) (flag var msg : string) :
  maintains I F (required args env flag var msg).
Proof. unfold required. keep. Qed.

Lemma keeps_resolve_region (env : gmap string string) :
  maintains I F (resolve_region args env).
Proof.
  unfold resolve_region.
  destruct (has_key args "region" || _); [| keep].
  destruct (js_or (args !! "region") _) as [[]|]; keep.
  destruct (includes regions _); keep.
Qed.

Lemma keeps_resolve_config (env : gmap string string) :
  maintains I F (resolve_config args env).
Proof.
  unfold resolve_config.
  repeat first
    [ apply keeps_required | apply keeps_resolve_region
    | apply keeps_split_arg | apply keeps_ret
    | apply keeps_bind; [| intros ?] ].
Qed.

Section WithConfig.
Variable cfg : RunConfig.
Hypothesis Hsource : sourceLang cfg = js_or (args !! "source-lang") None.

Lemma keeps_fetch_stories (storyList : list StoryListItem) :
  ∀ stories, maintains I F (fetch_stories W cfg storyList stories).
Proof.
  induction storyList as [|story rest IH]; intros stories; simpl; [keep |].
  destruct (story_filter cfg story); [| apply IH].
  keep. apply IH.
Qed.

Lemma keeps_prepare : maintains I F (prepare W args cfg).
Proof.
  unfold prepare, resolve_locales, general_information.
  destruct (List.length (locales cfg) =? 0)%nat;
    repeat first
      [ apply keeps_fetch_stories | apply keeps_ret | apply keeps_log; reflexivity
      | apply keeps_when | apply keeps_get_space_languages
      | apply keeps_get_all_stories
      | apply keeps_bind; [| intros ?] ].
Qed.

Lemma keeps_process_locale (story : Story) (locale : string) :
  maintains I F (process_locale slugify W args cfg story locale).
Proof.
  unfold process_locale. destruct (localized_paths story) as [paths|]; [| keep].
  destruct (skip_locale args paths locale); [keep |].
  apply keeps_bind; [by apply I_translate | intros ?].
  apply keeps_bind; [by apply I_translate | intros ?].
  keep.
Qed.

Lemma keeps_translate_locales (locales : list string) :
  ∀ story, maintains I F (translate_locales slugify W args cfg story locales).
Proof.
  induction locales as [|locale rest IH]; intros story; simpl; [keep |].
  apply keeps_bind; [apply keeps_process_locale | intros ?; apply IH].
Qed.

Lemma keeps_write_story (story : Story) :
  maintains I F (write_story W args cfg story).
Proof.
  unfold write_story.
  destruct (translated_slugs_attributes story); [| keep].
  keep. destruct (truthy_opt (args !! "dry-run")); [keep |].
  apply keeps_bind; [by apply I_put | intros ?]. keep.
Qed.

Lemma keeps_process_stories (locales : list string) (stories : list Story) :
  maintains I F (process_stories slugify W args cfg locales stories).
Proof.
  induction stories as [|story rest IH]; simpl; [keep |].
  apply keeps_bind; [| intros ?; apply IH].
  unfold process_story. keep.
  - apply keeps_translate_locales.
  - apply keeps_write_story.
Qed.

Lemma keeps_run_with_config : maintains I F (run_with_config slugify W args cfg).
Proof.
  unfold run_with_config.
  apply keeps_bind; [apply keeps_prepare | intros prepared].
  apply keeps_bind; [apply keeps_process_stories | intros _].
  unfold report.
  apply keeps_bind; [by apply keeps_log | intros _].
  apply keeps_bind; [by apply keeps_log | intros _].
  intros st HI. by apply F_report.
Qed.
End WithConfig.

Lemma keeps_main (env : gmap string string) :
  maintains I F (main slugify W args env).
Proof.
  unfold main. destruct (has_key args "help").
  - intros st HI. by apply F_help.
  - intros st HI. rewrite bind_unfold.
    pose proof (keeps_resolve_config env st HI) as Hcfg.
    destruct (resolve_config args env st) as [[cfg|h] st1] eqn:E; [| done].
    apply resolve_config_Ok in E as (-> & (_ & _ & _ & _ & Hsrc) & _).
    by apply keeps_run_with_config.
Qed.
End Precise.

(** ** The source language *)

(** X11: with [--source-lang] given, the check of the detected language is
    off: the script never remembers a detected language and never prints the
    error of line 139, whatever languages the translator reports. *)
Theorem pinned_source_never_aborts slugify W args env :
  truthy_opt (args !! "source-lang") = true →
  st_detectedSourceLang (run slugify W args env).2 = None ∧
  Forall (λ e, is_detection_error e = false) (trace (run slugify W args env).2).
Proof.
  intros Hpinned.
  set (Q := λ st, st_detectedSourceLang st = None ∧
                  Forall (λ e, is_detection_error e = false) (trace st)).
  assert (∀ e st, is_detection_error e = false → Q st → Q (emit e st).2) as Hemit.
  { intros e st He [Hd Htr]. split; [done |]. simpl.
    apply Forall_app. split; [done | by repeat constructor]. }
  pose proof (keeps_main slugify W args Q (λ _ st, Q st)) as Hmain.
  refine (_ (Hmain _ _ _ _ _ _ _ _ env initial_state _)); clear Hmain.
  - unfold run. by destruct (main slugify W args env initial_state) as [[u|h] fin].
  - intros e st _ _ He. by apply Hemit.
  - done.
  - done.
  - done.
  - intros cfg txt target Hsrc st HQ.
    assert (∃ v, sourceLang cfg = Some v) as [v Hv].
    { rewrite Hsrc. unfold js_or. rewrite Hpinned.
      destruct (args !! "source-lang"); [by eexists | discriminate]. }
    rewrite translate_unfold, Hv.
    destruct (translateText W (trace st) txt (Some v) target) as [r|]; simpl.
    + destruct HQ as [Hd Htr]. split; [done |]. simpl.
      apply Forall_app. split; [done | by repeat constructor].
    + destruct HQ as [Hd Htr]. split; [done |]. simpl.
      apply Forall_app. split; [done | by repeat constructor].
  - intros i body st HQ. unfold put_story_request.
    pose proof (Hemit (EvPut i body) st eq_refl HQ) as HQ'.
    destruct (emit (EvPut i body) st) as [u st'].
    by destruct (putStory W (trace st) i body).
  - intros st HQ. by apply Hemit.
  - intros st HQ. by apply Hemit.
  - split; [done | by constructor].
Qed.

Lemma pinned_source_never_aborts_witness :
  (run slugify_model (example_world mixed_items) pinned_args ∅).1 = Halt (Exit 0) ∧
  st_detectedSourceLang
    (run slugify_model (example_world mixed_items) pinned_args ∅).2 = None.
Proof.
  split; [vm_compute; reflexivity |].
  apply (pinned_source_never_aborts slugify_model (example_world mixed_items)
           pinned_args ∅).
  vm_compute. reflexivity.
Defined.

(** X12: every call of the translator in a run is given the source language
    of the configuration, [--source-lang] or [null], and nothing else. *)
Theorem every_call_uses_source slugify W args env :
  Forall (translated_from (js_or (args !! "source-lang") None))
         (trace (run slugify W args env).2).
Proof.
  set (src := js_or (args !! "source-lang") None).
  set (Q := λ st, Forall (translated_from src) (trace st)).
  assert (∀ e st, is_translate e = false → Q st → Q (emit e st).2) as Hemit.
  { intros e st He HQ. unfold Q. simpl. apply Forall_app. split; [done |].
    constructor; [| done]. by destruct e. }
  pose proof (keeps_main slugify W args Q (λ _ st, Q st)) as Hmain.
  refine (_ (Hmain _ _ _ _ _ _ _ _ env initial_state _)); clear Hmain.
  - unfold run. by destruct (main slugify W args env initial_state) as [[u|h] fin].
  - intros e st He _ _. by apply Hemit.
  - done.
  - done.
  - done.
  - intros cfg txt target Hsrc st HQ. fold src in Hsrc.
    destruct (translate_delta W cfg txt target st) as (evs & Htr & _ & _ & Hok).
    assert (Q (translate W cfg txt target st).2) as HQ'.
    { unfold Q. rewrite translate_unfold.
      destruct (translateText W (trace st) txt (sourceLang cfg) target) as [r|]; simpl.
      - destruct (sourceLang cfg) eqn:Hs; simpl;
          [apply Forall_app; split; [done | by repeat constructor] |].
        destruct (st_detectedSourceLang st) as [previous|]; simpl;
          [| apply Forall_app; split; [done | by repeat constructor]].
        destruct (String.eqb previous ""); simpl;
          [apply Forall_app; split; [done | by repeat constructor] |].
        destruct (negb _); simpl;
          repeat (apply Forall_app; split; [| by repeat constructor]); done.
      - apply Forall_app. split; [done | by repeat constructor]. }
    by destruct (translate W cfg txt target st) as [[t|h] st'].
  - intros i body st HQ. unfold put_story_request.
    pose proof (Hemit (EvPut i body) st eq_refl HQ) as HQ'.
    destruct (emit (EvPut i body) st) as [u st'].
    by destruct (putStory W (trace st) i body).
  - intros st HQ. by apply Hemit.
  - intros st HQ. by apply Hemit.
  - by constructor.
Qed.

(** ** Credentials that pass the check *)

(** X14: the check of a required value looks for the flag, its use takes the
    first truthy of flag and environment variable: in a configuration that
    resolves, the token (and so for the space id and the DeepL key) is a
    usable, truthy value unless the flag was given with a falsy value (empty,
    0, false) and the environment variable is unset or empty; then the check
    passes and the value is what the environment variable holds, that is
    nothing. *)
Theorem checked_credential_may_be_empty args env st cfg st' :
  resolve_config args env st = (Ok cfg, st') →
  (truthy_opt (oauthToken cfg) = false ↔
     has_key args "token" = true ∧ truthy_opt (args !! "token") = false ∧
     truthy_opt (env_val env "STORYBLOK_OAUTH_TOKEN") = false) ∧
  (truthy_opt (spaceId cfg) = false ↔
     has_key args "space" = true ∧ truthy_opt (args !! "space") = false ∧
     truthy_opt (env_val env "STORYBLOK_SPACE_ID") = false) ∧
  (truthy_opt (deeplApiKey cfg) = false ↔
     has_key args "deepl-api-key" = true ∧
     truthy_opt (args !! "deepl-api-key") = false ∧
     truthy_opt (env_val env "DEEPL_API_KEY") = false).
Proof.
  intros Hcfg. unfold resolve_config in Hcfg.
  apply bind_Ok in Hcfg as (tok & s1 & Htok & Hcfg).
  apply required_Ok in Htok as (-> & -> & Mtok).
  apply bind_Ok in Hcfg as (sp & s2 & Hsp & Hcfg).
  apply required_Ok in Hsp as (-> & -> & Msp).
  apply bind_Ok in Hcfg as (rg & s3 & Hrg & Hcfg).
  apply resolve_region_Ok in Hrg as (-> & _).
  apply bind_Ok in Hcfg as (key & s4 & Hkey & Hcfg).
  apply required_Ok in Hkey as (-> & -> & Mkey).
  apply bind_Ok in Hcfg as (ct & s5 & Hct & Hcfg).
  apply split_arg_Ok in Hct as (-> & _).
  apply bind_Ok in Hcfg as (lc & s6 & Hlc & Hcfg).
  apply split_arg_Ok in Hlc as (-> & _).
  apply bind_Ok in Hcfg as (sk & s7 & Hsk & Hcfg).
  apply split_arg_Ok in Hsk as (-> & _).
  apply bind_Ok in Hcfg as (on & s8 & Hon & Hcfg).
  apply split_arg_Ok in Hon as (-> & _).
  unfold mret, M_ret in Hcfg. injection Hcfg as <- <-. simpl.
  assert (∀ flag var, missing args env flag var = false →
            (truthy_opt (js_or (args !! flag) (env_val env var)) = false ↔
               has_key args flag = true ∧ truthy_opt (args !! flag) = false ∧
               truthy_opt (env_val env var) = false)) as Hone.
  { intros flag var Hm. unfold missing in Hm. unfold js_or.
    destruct (truthy_opt (args !! flag)) eqn:Hflag.
    - rewrite Hflag. split; [discriminate | by intros (_ & ? & _)].
    - destruct (has_key args flag), (truthy_opt (env_val env var));
        simpl in Hm; try discriminate Hm; intuition congruence. }
  auto.
Qed.

Lemma checked_credential_may_be_empty_witness :
  ∃ cfg,
    resolve_config args_empty_token ∅ initial_state = (Ok cfg, initial_state) ∧
    oauthToken cfg = None.
Proof.
  destruct (resolve_config args_empty_token ∅ initial_state) as [[cfg|h] st'] eqn:E;
    [| vm_compute in E; discriminate E].
  destruct (checked_credential_may_be_empty args_empty_token ∅ initial_state cfg st' E)
    as [Htok _].
  vm_compute in E. injection E as <- <-. by eexists.
Defined.

(** ** A live run in which nothing goes wrong *)

Section Live.
Context (slugify : string → string) (W : World) (args : gmap string jsval)
        (cfg : RunConfig) (d : string).
Hypothesis Hlive : truthy_opt (args !! "dry-run") = false.
Hypothesis Hput : ∀ h i body, putStory W h i body = true.
Hypothesis Htranslator : ∀ h txt source target,
  ∃ r, translateText W h txt source target = Some r ∧ detectedSourceLang r = d.

Lemma write_story_live story st :
  ∃ st' evs,
    write_story W args cfg story st = (Ok tt, st') ∧
    st_detectedSourceLang st' = st_detectedSourceLang st ∧
    trace st' = trace st ++ evs ∧
    put_ids evs = match translated_slugs_attributes story with
                  | Some _ => [story_id story]
                  | None => []
                  end.
Proof.
  unfold write_story, put_story_request. rewrite Hlive.
  destruct (translated_slugs_attributes story) as [attributes|];
    destruct (verbose cfg);
    cbv beta iota zeta delta
      [mbind M_bind mret M_ret when console_log emit fst snd trace
       st_detectedSourceLang st_totalBilledCharacters];
    rewrite ?Hput; eexists _, _; rewrite <- ?app_assoc;
    (split; [reflexivity |]); (split; [reflexivity |]);
    try (split; [reflexivity |]; reflexivity).
  split; [symmetry; apply app_nil_r | reflexivity].
Qed.

Lemma process_story_live locales story st :
  is_Some (localized_paths story) → detected_among d st →
  ∃ st' evs,
    process_story slugify W args cfg locales story st = (Ok tt, st') ∧
    detected_among d st' ∧
    trace st' = trace st ++ evs ∧
    put_ids evs = if is_written args locales story then [story_id story] else [].
Proof.
  intros Hpaths HJ. unfold process_story. rewrite bind_unfold.
  set (evs0 := if verbose cfg
               then [EvLog (Text ""); EvLog (DefaultFullSlug (full_slug story));
                     EvLog (DefaultName (name story))]
               else []).
  assert (∃ st0, when (verbose cfg)
                   (console_log (Text "");;
                    console_log (DefaultFullSlug (full_slug story));;
                    console_log (DefaultName (name story))) st = (Ok tt, st0) ∧
                 st_detectedSourceLang st0 = st_detectedSourceLang st ∧
                 trace st0 = trace st ++ evs0) as (st0 & -> & Hd0 & Htr0).
  { unfold evs0. destruct (verbose cfg); simpl.
    - eexists. split; [reflexivity |]. simpl. by rewrite <- !app_assoc.
    - eexists. split; [reflexivity |]. by rewrite app_nil_r. }
  assert (put_ids evs0 = []) as Hp0 by (unfold evs0; by destruct (verbose cfg)).
  assert (detected_among d st0) as HJ0 by (unfold detected_among; by rewrite Hd0).
  rewrite bind_unfold.
  destruct (succeeds_translate_locales slugify W args cfg d Htranslator locales
              story Hpaths st0 HJ0) as (story1 & st1 & Hloop & HJ1).
  destruct (translate_locales_summary slugify W args cfg locales story st0)
    as (evs1 & Htr1 & Hp1 & _ & Hok1).
  rewrite Hloop in Htr1, Hok1 |- *. simpl in Htr1.
  destruct (Hok1 story1 eq_refl) as (_ & added & [Hsame Hattr] & Hlang & _).
  destruct Hsame as (Hid & _).
  destruct (write_story_live story1 st1) as (st2 & evs2 & -> & Hd2 & Htr2 & Hp2).
  exists st2, (evs0 ++ evs1 ++ evs2).
  split; [done |]. split; [unfold detected_among in *; by rewrite Hd2 |].
  split; [by rewrite Htr2, Htr1, Htr0, <- !app_assoc |].
  rewrite !put_ids_app, Hp0, (no_put_put_ids evs1), Hp2, Hattr, Hid by done.
  unfold is_written. rewrite <- Hlang. simpl.
  destruct added as [|e added]; simpl; [| by destruct (translated_slugs_attributes story)].
  by destruct (translated_slugs_attributes story).
Qed.

Lemma process_stories_live locales stories :
  Forall (λ s, is_Some (localized_paths s)) stories →
  ∀ st, detected_among d st →
    ∃ st' evs,
      process_stories slugify W args cfg locales stories st = (Ok tt, st') ∧
      trace st' = trace st ++ evs ∧
      put_ids evs = map story_id (List.filter (is_written args locales) stories).
Proof.
  induction 1 as [|story rest Hpaths _ IH]; intros st HJ; simpl.
  { exists st, []. by rewrite app_nil_r. }
  rewrite bind_unfold.
  destruct (process_story_live locales story st Hpaths HJ)
    as (st1 & evs1 & -> & HJ1 & Htr1 & Hp1).
  destruct (IH st1 HJ1) as (st2 & evs2 & -> & Htr2 & Hp2).
  exists st2, (evs1 ++ evs2). split; [done |].
  split; [by rewrite Htr2, Htr1, <- app_assoc |].
  rewrite put_ids_app, Hp1, Hp2. by destruct (is_written args locales story).
Qed.
End Live.

(** X15: a live run (no [--dry-run], no [--help]) whose configuration
    resolves, in a world where every request is answered, every story has
    [localized_paths] and the translator always detects the same language,
    ends with code 0 and has written, once each and in order, exactly the
    prepared stories that have a locale that is not skipped (or that were
    fetched with the key [translated_slugs_attributes]); a story whose
    locales are all skipped is not written. *)
Theorem live_run_writes_translated_stories slugify W args env cfg :
  truthy_opt (args !! "dry-run") = false →
  has_key args "help" = false →
  resolve_config args env initial_state = (Ok cfg, initial_state) →
  cooperative W →
  (∀ h i body, putStory W h i body = true) →
  ∃ locales stories st1 fin,
    prepare W args cfg initial_state = (Ok (locales, stories), st1) ∧
    run slugify W args env = (Halt (Exit 0), fin) ∧
    put_ids (trace fin) =
      map story_id (List.filter (is_written args locales) stories).
Proof.
  intros Hlive Hhelp Hcfg (Hspace & Hlist & Hstory & d & Htranslator) Hput.
  assert (detected_among d initial_state) as HJ0 by by left.
  destruct (succeeds_prepare W args cfg d Hspace Hlist Hstory initial_state HJ0)
    as ([locales stories] & st1 & Hprep & HJ1).
  pose proof (prepare_Ok W args cfg Hstory initial_state locales stories st1 Hprep)
    as Hpaths.
  destruct (process_stories_live slugify W args cfg d Hlive Hput Htranslator
              locales stories Hpaths st1 HJ1) as (st2 & evs & Hloop & Htr & Hids).
  exists locales, stories, st1.
  assert (run slugify W args env =
          (Halt (Exit 0),
           {| st_detectedSourceLang := st_detectedSourceLang st2;
              st_totalBilledCharacters := st_totalBilledCharacters st2;
              trace := trace st2 ++
                [EvLog (Text ""); EvLog Finished;
                 EvLog (TotalBilled (st_totalBilledCharacters st2))] |}))
    as Hrun.
  { unfold run, main. rewrite Hhelp, bind_unfold, Hcfg.
    unfold run_with_config. rewrite bind_unfold, Hprep. simpl.
    by rewrite bind_unfold, Hloop, report_halts. }
  eexists. split; [done |]. split; [exact Hrun |].
  destruct (run_shape slugify W args env _ _ Hrun)
    as [(_ & _ & Hno) | (cfg' & locales' & stories' & st1' & evs' & rest & Hcfg'
                         & Hprep' & _ & Hn1 & Htr' & Hfin & _ & Hnrest & _)].
  { specialize (Hno eq_refl). congruence. }
  rewrite Hcfg in Hcfg'. injection Hcfg' as <-.
  rewrite Hprep in Hprep'. injection Hprep' as <- <- <-.
  rewrite Hloop in Htr'. simpl in Htr'. rewrite Htr in Htr'.
  apply app_inv_head in Htr' as <-.
  rewrite Hfin, !put_ids_app, (no_put_put_ids (trace st1)),
    (no_put_put_ids rest), Hids by done.
  by rewrite app_nil_r.
Qed.

Lemma live_run_writes_translated_stories_witness :
  ∃ locales stories st1 fin,
    prepare steady_world example_args example_config initial_state =
      (Ok (locales, stories), st1) ∧
    run slugify_model steady_world example_args example_env = (Halt (Exit 0), fin) ∧
    put_ids (trace fin) =
      map story_id (List.filter (is_written example_args locales) stories).
Proof.
  apply (live_run_writes_translated_stories slugify_model steady_world
           example_args example_env example_config).
  - vm_compute. reflexivity.
  - vm_compute. reflexivity.
  - vm_compute. reflexivity.
  - split; [by eexists |]. split; [by eexists |].
    split; [intros h i; eexists; split; [reflexivity |]; by destruct (i =? 2) |].
    exists "EN". intros h txt source target. by eexists.
  - done.
Defined.

Lemma split_on_join_witness :
  split_on "," "page" = ["page"] ∧
  join_with "," (split_on "," "home,about-us") = "home,about-us".
Proof.
  split.
  - apply (split_on_join "," "page"). reflexivity.
  - apply (split_on_join "," "home,about-us").
Defined.
